(** * Startup name generator: favorites store and idea generation

    A shallow embedding of [src/App.tsx].  The component keeps its data in
    React state slots, mirrors the favorites into [localStorage] under one
    key as JSON text, and asks an external text-generation service for the
    ideas.  JavaScript strings are sequences of UTF-16 code units; they are
    modelled as lists of numbers so that [String.prototype.trim],
    [JSON.stringify] and [JSON.parse] can be written out on them. *)

From Stdlib Require Import NArith String Ascii Lia DecimalString DecimalNat.
From stdpp Require Import base option list gmap.

Open Scope N_scope.
Open Scope list_scope.

(** ** JavaScript strings *)

Module JSString.

(** A string is its list of UTF-16 code units. *)
Abbreviation t := (list N).

(** The code units of an ASCII literal. *)
Definition lit (s : string) : t :=
  N_of_ascii <$> list_ascii_of_string s.

(** [s ? ... : ...] and [if (s)] on a string: the empty string is falsy. *)
Definition truthy (s : t) : bool :=
  match s with
  | [] => false
  | _ :: _ => true
  end.

(** [if (x)] where [x] is a string, [null] or [undefined]. *)
Definition truthy_opt (x : option t) : bool :=
  match x with
  | None => false
  | Some s => truthy s
  end.

(** WhiteSpace and LineTerminator code units of ECMAScript, the set that
    [trim] strips: TAB, LF, VT, FF, CR, SP, NBSP, U+1680, U+2000..U+200A,
    U+2028, U+2029, U+202F, U+205F, U+3000 and the byte order mark. *)
Definition is_white (c : N) : bool :=
  ((9 <=? c) && (c <=? 13)) || (c =? 32) || (c =? 160) || (c =? 5760)
  || ((8192 <=? c) && (c <=? 8202)) || (c =? 8232) || (c =? 8233)
  || (c =? 8239) || (c =? 8287) || (c =? 12288) || (c =? 65279).

Fixpoint trimStart (s : t) : t :=
  match s with
  | [] => []
  | c :: r => if is_white c then trimStart r else s
  end.

Definition trimEnd (s : t) : t := reverse (trimStart (reverse s)).

Definition trim (s : t) : t := trimEnd (trimStart s).

(** [Array.prototype.join] on an array of strings. *)
Fixpoint join (sep : t) (parts : list t) : t :=
  match parts with
  | [] => []
  | [p] => p
  | p :: rest => p ++ sep ++ join sep rest
  end.

End JSString.

Abbreviation jsstring := (list N).

(** ** The data model *)

(** [interface StartupIdea { name: string; slogan: string }] *)
Record StartupIdea := mkIdea { name : jsstring; slogan : jsstring }.

#[global] Instance StartupIdea_eq_dec : EqDecision StartupIdea.
Proof. solve_decision. Defined.

(** ** Favorites *)

(** The updater that [toggleFavorite] hands to [setFavorites]:
<<
    prev => {
      const exists = prev.some(f => f.name === idea.name);
      if (exists) { return prev.filter(f => f.name !== idea.name); }
      return [...prev, idea];
    }
>> *)
Definition toggleFavorite (idea : StartupIdea) (prev : list StartupIdea)
  : list StartupIdea :=
  let exists_ := existsb (λ f, bool_decide (name f = name idea)) prev in
  if exists_ then filter (λ f, name f ≠ name idea) prev
  else prev ++ [idea].

(** [isFavorite(name)]: [favorites.some(f => f.name === name)]. *)
Definition isFavorite (favorites : list StartupIdea) (n : jsstring) : bool :=
  existsb (λ f, bool_decide (name f = n)) favorites.

(** The uniqueness invariant of the favorites: no two entries share a name. *)
Definition unique_names (l : list StartupIdea) : Prop := NoDup (name <$> l).

(** ** JSON text *)

Module JSON.

(** A parsed JSON value.  A number is carried as its lexeme: no operation of
    the component looks at the numeric value.  An object is carried as its
    members in source order. *)
Inductive value :=
| Null
| Bool (b : bool)
| Number (lexeme : jsstring)
| String (s : jsstring)
| Array (items : list value)
| Object (members : list (jsstring * value)).

(** *** Writing *)

Definition hex_digit (d : N) : N := if d <? 10 then 48 + d else 87 + d.

(** [\uXXXX] with lowercase hexadecimal digits. *)
Definition unicode_escape (c : N) : jsstring :=
  [92; 117; hex_digit (c / 4096 mod 16); hex_digit (c / 256 mod 16);
   hex_digit (c / 16 mod 16); hex_digit (c mod 16)].

Definition is_high_surrogate (c : N) : bool := (55296 <=? c) && (c <=? 56319).
Definition is_low_surrogate (c : N) : bool := (56320 <=? c) && (c <=? 57343).

(** One code unit that is not the head of a surrogate pair, as
    QuoteJSONString writes it. *)
Definition quote_unit (c : N) : jsstring :=
  if c =? 8 then [92; 98]
  else if c =? 9 then [92; 116]
  else if c =? 10 then [92; 110]
  else if c =? 12 then [92; 102]
  else if c =? 13 then [92; 114]
  else if c =? 34 then [92; 34]
  else if c =? 92 then [92; 92]
  else if (c <? 32) || is_high_surrogate c || is_low_surrogate c
       then unicode_escape c
  else [c].

(** The body of a quoted string: a well-formed surrogate pair is copied, a
    lone surrogate is escaped. *)
Fixpoint quote_units (s : jsstring) : jsstring :=
  match s with
  | [] => []
  | c :: r =>
      match r with
      | d :: r' =>
          if is_high_surrogate c && is_low_surrogate d
          then c :: d :: quote_units r'
          else quote_unit c ++ quote_units r
      | [] => quote_unit c
      end
  end.

Definition quote (s : jsstring) : jsstring := 34 :: quote_units s ++ [34].

(** *** Reading *)

(** JSON whitespace: space, TAB, LF, CR. *)
Definition is_ws (c : N) : bool :=
  (c =? 32) || (c =? 9) || (c =? 10) || (c =? 13).

Fixpoint skip_ws (s : jsstring) : jsstring :=
  match s with
  | [] => []
  | c :: r => if is_ws c then skip_ws r else s
  end.

Definition hex_value (c : N) : option N :=
  if (48 <=? c) && (c <=? 57) then Some (c - 48)
  else if (97 <=? c) && (c <=? 102) then Some (c - 87)
  else if (65 <=? c) && (c <=? 70) then Some (c - 55)
  else None.

Definition hex4 (h1 h2 h3 h4 : N) : option N :=
  match hex_value h1, hex_value h2, hex_value h3, hex_value h4 with
  | Some a, Some b, Some c, Some d => Some (4096 * a + 256 * b + 16 * c + d)
  | _, _, _, _ => None
  end.

(** The code unit a single-character escape stands for. *)
Definition unescape (e : N) : option N :=
  if e =? 34 then Some 34
  else if e =? 92 then Some 92
  else if e =? 47 then Some 47
  else if e =? 98 then Some 8
  else if e =? 102 then Some 12
  else if e =? 110 then Some 10
  else if e =? 114 then Some 13
  else if e =? 116 then Some 9
  else None.

Definition cons_fst {A B} (c : A) (r : option (list A * B))
  : option (list A * B) :=
  match r with
  | Some (s, rest) => Some (c :: s, rest)
  | None => None
  end.

(** The characters of a string after its opening quote, up to and including
    the closing quote. *)
Fixpoint read_units (s : jsstring) : option (jsstring * jsstring) :=
  match s with
  | [] => None
  | c :: r =>
      if c =? 34 then Some ([], r)
      else if c =? 92 then
        match r with
        | [] => None
        | e :: r1 =>
            if e =? 117 then
              match r1 with
              | h1 :: h2 :: h3 :: h4 :: r2 =>
                  match hex4 h1 h2 h3 h4 with
                  | Some u => cons_fst u (read_units r2)
                  | None => None
                  end
              | _ => None
              end
            else
              match unescape e with
              | Some u => cons_fst u (read_units r1)
              | None => None
              end
        end
      else if c <? 32 then None
      else cons_fst c (read_units r)
  end.

Definition is_digit (c : N) : bool := (48 <=? c) && (c <=? 57).

Fixpoint span_digits (s : jsstring) : jsstring * jsstring :=
  match s with
  | [] => ([], [])
  | c :: r =>
      if is_digit c then let '(d, r') := span_digits r in (c :: d, r')
      else ([], s)
  end.

(** [0] or a digit sequence that does not start with [0]. *)
Definition lex_int (s : jsstring) : option (jsstring * jsstring) :=
  match s with
  | [] => None
  | c :: r =>
      if c =? 48 then Some ([48], r)
      else if is_digit c then let '(d, r') := span_digits r in Some (c :: d, r')
      else None
  end.

(** An optional fraction: a dot needs at least one digit after it. *)
Definition lex_frac (s : jsstring) : option (jsstring * jsstring) :=
  match s with
  | c :: r =>
      if c =? 46 then
        match span_digits r with
        | ([], _) => None
        | (d, r') => Some (46 :: d, r')
        end
      else Some ([], s)
  | [] => Some ([], [])
  end.

(** An optional exponent: [e] or [E], an optional sign, at least one digit. *)
Definition lex_exp (s : jsstring) : option (jsstring * jsstring) :=
  match s with
  | c :: r =>
      if (c =? 101) || (c =? 69) then
        let '(sign, r1) :=
          match r with
          | x :: r1 => if (x =? 43) || (x =? 45) then ([x], r1) else ([], r)
          | [] => ([], [])
          end in
        match span_digits r1 with
        | ([], _) => None
        | (d, r2) => Some (c :: sign ++ d, r2)
        end
      else Some ([], s)
  | [] => Some ([], [])
  end.

Definition lex_number (s : jsstring) : option (jsstring * jsstring) :=
  let '(sign, s1) :=
    match s with
    | c :: r => if c =? 45 then ([45], r) else ([], s)
    | [] => ([], [])
    end in
  match lex_int s1 with
  | None => None
  | Some (i, s2) =>
      match lex_frac s2 with
      | None => None
      | Some (f, s3) =>
          match lex_exp s3 with
          | None => None
          | Some (e, s4) => Some (sign ++ i ++ f ++ e, s4)
          end
      end
  end.

(** The rest of a literal whose first letter has been read. *)
Fixpoint expect (word s : jsstring) : option jsstring :=
  match word with
  | [] => Some s
  | w :: word' =>
      match s with
      | c :: r => if c =? w then expect word' r else None
      | [] => None
      end
  end.

(** Recursive descent over the text; [fuel] bounds the number of nested
    calls.  Each function returns what it read and the text after it. *)
Fixpoint read_value (fuel : nat) (s : jsstring) : option (value * jsstring) :=
  match fuel with
  | O => None
  | S fuel =>
      match skip_ws s with
      | [] => None
      | c :: r =>
          if c =? 34 then
            match read_units r with
            | Some (str, r') => Some (String str, r')
            | None => None
            end
          else if c =? 91 then
            match skip_ws r with
            | c' :: r' =>
                if c' =? 93 then Some (Array [], r')
                else match read_elements fuel r with
                     | Some (vs, r'') => Some (Array vs, r'')
                     | None => None
                     end
            | [] => None
            end
          else if c =? 123 then
            match skip_ws r with
            | c' :: r' =>
                if c' =? 125 then Some (Object [], r')
                else match read_members fuel r with
                     | Some (ms, r'') => Some (Object ms, r'')
                     | None => None
                     end
            | [] => None
            end
          else if c =? 110 then
            match expect [117; 108; 108] r with
            | Some r' => Some (Null, r')
            | None => None
            end
          else if c =? 116 then
            match expect [114; 117; 101] r with
            | Some r' => Some (Bool true, r')
            | None => None
            end
          else if c =? 102 then
            match expect [97; 108; 115; 101] r with
            | Some r' => Some (Bool false, r')
            | None => None
            end
          else
            match lex_number (c :: r) with
            | Some (lexeme, r') => Some (Number lexeme, r')
            | None => None
            end
      end
  end
with read_elements (fuel : nat) (s : jsstring)
  : option (list value * jsstring) :=
  match fuel with
  | O => None
  | S fuel =>
      match read_value fuel s with
      | None => None
      | Some (v, r) =>
          match skip_ws r with
          | [] => None
          | c :: r' =>
              if c =? 44 then
                match read_elements fuel r' with
                | Some (vs, r'') => Some (v :: vs, r'')
                | None => None
                end
              else if c =? 93 then Some ([v], r')
              else None
          end
      end
  end
with read_members (fuel : nat) (s : jsstring)
  : option (list (jsstring * value) * jsstring) :=
  match fuel with
  | O => None
  | S fuel =>
      match skip_ws s with
      | [] => None
      | c :: r =>
          if c =? 34 then
            match read_units r with
            | None => None
            | Some (k, r1) =>
                match skip_ws r1 with
                | [] => None
                | c1 :: r2 =>
                    if c1 =? 58 then
                      match read_value fuel r2 with
                      | None => None
                      | Some (v, r3) =>
                          match skip_ws r3 with
                          | [] => None
                          | c3 :: r4 =>
                              if c3 =? 44 then
                                match read_members fuel r4 with
                                | Some (ms, r5) => Some ((k, v) :: ms, r5)
                                | None => None
                                end
                              else if c3 =? 125 then Some ([(k, v)], r4)
                              else None
                          end
                      end
                    else None
                end
            end
          else None
      end
  end.

(** [JSON.parse(text)]: one value, with nothing but whitespace after it.
    [None] stands for the [SyntaxError] it throws.  Twice the length of the
    text is fuel enough, since a nested call is made only after a character
    has been read, or by [read_elements] for its first value: whatever some
    fuel reads as one value, [parse] returns ([parse_complete] below). *)
Definition parse (text : jsstring) : option value :=
  match read_value (2 * length text + 2) text with
  | Some (v, r) =>
      match skip_ws r with
      | [] => Some v
      | _ :: _ => None
      end
  | None => None
  end.

End JSON.

(** ** What the favorites look like as JSON *)

Definition name_key : jsstring := JSString.lit "name".
Definition slogan_key : jsstring := JSString.lit "slogan".

(** [JSON.stringify] is called in one place, on [favorites], and is written
    out at that type.  One [StartupIdea]: both properties, in the order of
    the interface, no whitespace. *)
Definition stringify_idea (idea : StartupIdea) : jsstring :=
  [123] ++ JSON.quote name_key ++ [58] ++ JSON.quote (name idea)
  ++ [44] ++ JSON.quote slogan_key ++ [58] ++ JSON.quote (slogan idea)
  ++ [125].

(** [JSON.stringify(favorites)] for [favorites : StartupIdea[]]. *)
Definition JSON_stringify (favorites : list StartupIdea) : jsstring :=
  [91] ++ JSString.join [44] (stringify_idea <$> favorites) ++ [93].

(** The value a [StartupIdea] is at run time, as [JSON.parse] builds it. *)
Definition idea_value (idea : StartupIdea) : JSON.value :=
  JSON.Object [(name_key, JSON.String (name idea));
               (slogan_key, JSON.String (slogan idea))].

Definition ideas_value (l : list StartupIdea) : JSON.value :=
  JSON.Array (idea_value <$> l).

(** The unchecked cast of a parsed value to [StartupIdea[]], as far as the
    records above describe it: defined on the arrays of objects that have
    exactly the string properties [name] and [slogan], in this order, which
    are the values that the text of a [StartupIdea[]] parses to. *)
Definition as_idea (v : JSON.value) : option StartupIdea :=
  match v with
  | JSON.Object [(k1, JSON.String n); (k2, JSON.String s)] =>
      if decide (k1 = name_key ∧ k2 = slogan_key) then Some (mkIdea n s)
      else None
  | _ => None
  end.

Definition as_ideas (v : JSON.value) : option (list StartupIdea) :=
  match v with
  | JSON.Array items => mapM as_idea items
  | _ => None
  end.

(** ** The browser around the component *)

(** ['startup-favorites'] *)
Definition STORAGE_KEY : jsstring := JSString.lit "startup-favorites".

Inductive Exn :=
| SyntaxError
| Error (message : jsstring)
| ServiceFailure (reason : jsstring).

(** One [console.error] call: its label, if any, and the exception. *)
Record Diagnostic := mkDiagnostic { label : option jsstring; raised : Exn }.

(** ** The component's state *)

Inductive View := Generate | Favorites.

(** The nine [useState] slots.  [ideas] holds whatever [JSON.parse] returned
    for the service's text, which nothing checks; [favorites] is read at its
    declared type, which is what the toggle works on. *)
Record AppState := mkAppState {
  industry : jsstring;
  keywords : jsstring;
  selectedModifiers : list jsstring;
  ideas : JSON.value;
  favorites : list StartupIdea;
  loading : bool;
  error : option jsstring;
  copiedIndex : option nat;
  view : View
}.

Definition initial_state : AppState :=
  mkAppState [] [] [] (JSON.Array []) [] false None None Generate.

(** *** The text-generation service *)

(** The [responseSchema] of the request. *)
Inductive Schema :=
| SchemaString (description : jsstring)
| SchemaObject (properties : list (jsstring * Schema))
               (required : list jsstring)
| SchemaArray (items : Schema) (description : jsstring).

Definition responseSchema : Schema :=
  SchemaArray
    (SchemaObject
       [(name_key, SchemaString (JSString.lit "The startup name"));
        (slogan_key,
         SchemaString (JSString.lit "A catchy slogan for the startup"))]
       [name_key; slogan_key])
    (JSString.lit "A list of 10 creative startup names and slogans.").

(** The property [k] of a parsed object: the last member of that name. *)
Fixpoint member (k : jsstring) (members : list (jsstring * JSON.value))
  : option JSON.value :=
  match members with
  | [] => None
  | (k', v) :: rest =>
      match member k rest with
      | Some x => Some x
      | None => if decide (k' = k) then Some v else None
      end
  end.

(** Whether a parsed value has the shape a schema describes. *)
Fixpoint conforms (schema : Schema) (v : JSON.value) : bool :=
  match schema, v with
  | SchemaString _, JSON.String _ => true
  | SchemaArray items _, JSON.Array vs => forallb (conforms items) vs
  | SchemaObject properties required, JSON.Object members =>
      forallb (λ k, bool_decide (is_Some (member k members))) required
      && forallb (λ p, match member (fst p) members with
                       | Some x => conforms (snd p) x
                       | None => true
                       end) properties
  | _, _ => false
  end.

Record Request := mkRequest {
  model : jsstring;
  contents : jsstring;
  responseMimeType : jsstring;
  requestSchema : Schema
}.

(** [response.text] may be [undefined]. *)
Record Response := mkResponse { text : option jsstring }.

(** How the awaited call ends. *)
Inductive Reply :=
| Fulfilled (response : Response)
| Rejected (reason : Exn).

(** The service is outside the component: any function from requests to
    replies. *)
Definition Service := Request → Reply.

(** *** Handlers *)

(** Everything a handler can touch. *)
Record World := mkWorld {
  state : AppState;
  localStorage : gmap jsstring jsstring;
  console : list Diagnostic;
  outbound : list Request
}.

Inductive Result (A : Type) :=
| Returned (a : A)
| Thrown (e : Exn).
Arguments Returned {A} a.
Arguments Thrown {A} e.

(** A handler runs on the world and either returns or throws. *)
Definition Handler (A : Type) : Type := World → Result A * World.

#[global] Instance Handler_ret : MRet Handler :=
  λ A a w, (Returned a, w).

#[global] Instance Handler_bind : MBind Handler :=
  λ A B k m w,
    match m w with
    | (Returned a, w') => k a w'
    | (Thrown e, w') => (Thrown e, w')
    end.

Definition throw {A} (e : Exn) : Handler A := λ w, (Thrown e, w).

(** [try { body } catch (err) { handler(err) } finally { cleanup }] *)
Definition try_catch_finally (body : Handler unit)
  (handler : Exn → Handler unit) (cleanup : Handler unit) : Handler unit :=
  λ w,
    let '(r, w1) :=
      match body w with
      | (Returned a, w') => (Returned a, w')
      | (Thrown e, w') => handler e w'
      end in
    match cleanup w1 with
    | (Returned _, w2) => (r, w2)
    | (Thrown e, w2) => (Thrown e, w2)
    end.

Definition update (f : AppState → AppState) : Handler unit :=
  λ w, (Returned (), mkWorld (f (state w)) (localStorage w) (console w)
                             (outbound w)).

Definition setIdeas (v : JSON.value) : Handler unit :=
  update (λ st, mkAppState (industry st) (keywords st) (selectedModifiers st)
                  v (favorites st) (loading st) (error st) (copiedIndex st)
                  (view st)).

Definition setLoading (b : bool) : Handler unit :=
  update (λ st, mkAppState (industry st) (keywords st) (selectedModifiers st)
                  (ideas st) (favorites st) b (error st) (copiedIndex st)
                  (view st)).

Definition setError (e : option jsstring) : Handler unit :=
  update (λ st, mkAppState (industry st) (keywords st) (selectedModifiers st)
                  (ideas st) (favorites st) (loading st) e (copiedIndex st)
                  (view st)).

Definition setCopiedIndex (i : option nat) : Handler unit :=
  update (λ st, mkAppState (industry st) (keywords st) (selectedModifiers st)
                  (ideas st) (favorites st) (loading st) (error st) i
                  (view st)).

Definition setView (v : View) : Handler unit :=
  update (λ st, mkAppState (industry st) (keywords st) (selectedModifiers st)
                  (ideas st) (favorites st) (loading st) (error st)
                  (copiedIndex st) v).

(** The second effect, [useEffect(..., [favorites])]:
    [localStorage.setItem('startup-favorites', JSON.stringify(favorites))]. *)
Definition persist (favorites : list StartupIdea)
  (storage : gmap jsstring jsstring) : gmap jsstring jsstring :=
  <[STORAGE_KEY := JSON_stringify favorites]> storage.

Definition persist_effect : Handler unit :=
  λ w, (Returned (),
        mkWorld (state w) (persist (favorites (state w)) (localStorage w))
                (console w) (outbound w)).

(** [setFavorites(updater)], and the persistence effect that the change of
    [favorites] triggers: the updaters of this component always build a new
    array, so the effect runs after every call. *)
Definition setFavorites (updater : list StartupIdea → list StartupIdea)
  : Handler unit :=
  update (λ st, mkAppState (industry st) (keywords st) (selectedModifiers st)
                  (ideas st) (updater (favorites st)) (loading st)
                  (error st) (copiedIndex st) (view st));;
  persist_effect.

Definition console_error (l : option jsstring) (e : Exn) : Handler unit :=
  λ w, (Returned (), mkWorld (state w) (localStorage w)
                             (console w ++ [mkDiagnostic l e]) (outbound w)).

(** [await ai.models.generateContent(request)]: the request goes out, and
    the reply is returned or thrown. *)
Definition generateContent (ai : Service) (request : Request)
  : Handler Response :=
  λ w,
    let w' := mkWorld (state w) (localStorage w) (console w)
                      (outbound w ++ [request]) in
    match ai request with
    | Fulfilled response => (Returned response, w')
    | Rejected reason => (Thrown reason, w')
    end.

(** [JSON.parse] inside a handler. *)
Definition JSON_parse (text : jsstring) : Handler JSON.value :=
  match JSON.parse text with
  | Some v => mret v
  | None => throw SyntaxError
  end.

(** [try { body } catch (e) { handler(e) }] *)
Definition try_catch {A} (body : Handler A) (handler : Exn → Handler A)
  : Handler A :=
  λ w,
    match body w with
    | (Returned a, w') => (Returned a, w')
    | (Thrown e, w') => handler e w'
    end.

(** *** Hydration: the first effect *)

(**
<<
    const saved = localStorage.getItem('startup-favorites');
    if (saved) {
      try { setFavorites(JSON.parse(saved)); }
      catch (e) { console.error('Failed to parse favorites', e); }
    }
>>
    The handler returns the value it handed to [setFavorites], if it called
    it; the favorites stay the empty array of [useState] otherwise. *)
Definition hydrate : Handler (option JSON.value) :=
  λ w,
    let saved := localStorage w !! STORAGE_KEY in
    match saved with
    | Some text =>
        if JSString.truthy text then
          try_catch
            (v ← JSON_parse text; mret (Some v))
            (λ e,
               console_error
                 (Some (JSString.lit "Failed to parse favorites")) e;;
               mret None) w
        else (Returned None, w)
    | None => (Returned None, w)
    end.

(** The star button: [toggleFavorite(idea)]. *)
Definition toggleFavorite_click (idea : StartupIdea) : Handler unit :=
  setFavorites (toggleFavorite idea).

(** *** Generation *)

(** The template literal of [generateIdeas]. *)
Definition prompt_of (industry keywords : jsstring)
  (selectedModifiers : list jsstring) : jsstring :=
  JSString.lit "Generate 10 highly creative, catchy, and modern startup names for the following industry or concept: "
  ++ [34] ++ industry ++ [34] ++ JSString.lit "."
  ++ [10] ++ JSString.lit "      "
  ++ (if JSString.truthy (JSString.trim keywords)
      then JSString.lit "Incorporate or be inspired by these keywords: "
           ++ [34] ++ keywords ++ [34] ++ JSString.lit "."
      else [])
  ++ [10] ++ JSString.lit "      "
  ++ (if bool_decide (0 < length selectedModifiers)%nat
      then JSString.lit "Consider these modifiers/styles: "
           ++ JSString.join (JSString.lit ", ") selectedModifiers
           ++ JSString.lit "."
      else [])
  ++ [10] ++ JSString.lit "      "
  ++ JSString.lit "For each name, also generate one unique, catchy slogan. Return the result as a list of objects with 'name' and 'slogan' properties.".

Definition request_of (st : AppState) : Request :=
  mkRequest (JSString.lit "gemini-3-flash-preview")
    (prompt_of (industry st) (keywords st) (selectedModifiers st))
    (JSString.lit "application/json") responseSchema.

(** The one message a failed generation shows. *)
Definition GENERATION_ERROR : jsstring :=
  JSString.lit "An error occurred while generating ideas. Please try again.".

(**
<<
    if (!industry.trim()) return;
    setLoading(true); setError(null); setCopiedIndex(null);
    setView('generate');
    try {
      const response = await ai.models.generateContent({...});
      const jsonStr = response.text?.trim();
      if (jsonStr) { setIdeas(JSON.parse(jsonStr)); }
      else { throw new Error("Failed to generate ideas."); }
    } catch (err) {
      console.error(err);
      setError("An error occurred while generating ideas. Please try again.");
    } finally { setLoading(false); }
>>
    The handler reads [industry], [keywords] and [selectedModifiers] from
    the render it was created in. *)
Definition generateIdeas (ai : Service) : Handler unit :=
  λ w,
    let st := state w in
    if negb (JSString.truthy (JSString.trim (industry st)))
    then (Returned (), w)
    else
      (setLoading true;;
       setError None;;
       setCopiedIndex None;;
       setView Generate;;
       try_catch_finally
         (response ← generateContent ai (request_of st);
          let jsonStr := JSString.trim <$> text response in
          match jsonStr with
          | Some payload =>
              if JSString.truthy payload then
                parsedIdeas ← JSON_parse payload;
                setIdeas parsedIdeas
              else throw (Error (JSString.lit "Failed to generate ideas."))
          | None => throw (Error (JSString.lit "Failed to generate ideas."))
          end)
         (λ err,
            console_error None err;;
            setError (Some GENERATION_ERROR))
         (setLoading false)) w.

(** *** Mounting *)

(** How a page load ends. *)
Inductive Mounted :=
| Ready (w : World)
| Crashed (e : Exn)
| IllTyped (v : JSON.value).

(** The first render and its two effects, in source order: hydration asks
    for the stored favorites, persistence writes the favorites of that
    render (the empty array); when hydration called [setFavorites], the
    component renders again and persistence writes the hydrated favorites.
    The hydrated value is cast to [StartupIdea[]] unchecked: for a value
    on which [as_ideas] is not defined the records no longer describe the
    state, and the page load ends here as [IllTyped]. *)
Definition mount (storage : gmap jsstring jsstring) : Mounted :=
  match hydrate (mkWorld initial_state storage [] []) with
  | (Thrown e, _) => Crashed e
  | (Returned h, w1) =>
      let w2 := snd (persist_effect w1) in
      match h with
      | None => Ready w2
      | Some v =>
          match as_ideas v with
          | Some l => Ready (snd (setFavorites (λ _, l) w2))
          | None => IllTyped v
          end
      end
  end.

(** ** Sample data *)

Definition vitalis : StartupIdea :=
  mkIdea (JSString.lit "Vitalis") (JSString.lit "Health, Amplified").

(** Another idea of the same name. *)
Definition vitalis' : StartupIdea :=
  mkIdea (JSString.lit "Vitalis") (JSString.lit "Care, rebooted").

Definition nimbus : StartupIdea :=
  mkIdea (JSString.lit "Nimbus") (JSString.lit "Cloud nine, delivered").

(** A mounted component with two favorites and empty storage. *)
Definition two_favorites : World :=
  mkWorld (mkAppState [] [] [] (JSON.Array []) [vitalis; nimbus]
                      false None None Generate) ∅ [] [].

(** The form filled in as in the scenario of the specification, on the
    favorites view, with one favorite. *)
Definition healthcare : World :=
  mkWorld (mkAppState (JSString.lit "AI Healthcare") [] [] (JSON.Array [])
                      [nimbus] false None None Favorites) ∅ [] [].

(** An industry field of two spaces and a no-break space. *)
Definition blank_form : World :=
  mkWorld (mkAppState [32; 32; 160] (JSString.lit "fast") [] (JSON.Array [])
                      [nimbus] false None None Generate) ∅ [] [].

(** A stored string that is not JSON. *)
Definition corrupted : jsstring := JSString.lit "{not json".

(** The text [[{"name":"Vitalis"}]]: an array whose item has no slogan. *)
Definition sloganless_payload : jsstring :=
  [91; 123] ++ JSON.quote name_key ++ [58]
  ++ JSON.quote (JSString.lit "Vitalis") ++ [125; 93].

(** A service that answers every request with the given text. *)
Definition answering (payload : jsstring) : Service :=
  λ _, Fulfilled (mkResponse (Some payload)).

(** A service that fails every request. *)
Definition unreachable : Service :=
  λ _, Rejected (ServiceFailure (JSString.lit "503")).

(** ** Vocabulary of the proofs *)

(** The diagnostic of a failed hydration. *)
Definition PARSE_DIAGNOSTIC : Diagnostic :=
  mkDiagnostic (Some (JSString.lit "Failed to parse favorites")) SyntaxError.

(** The error [generateIdeas] throws itself. *)
Definition NO_PAYLOAD : Exn :=
  Error (JSString.lit "Failed to generate ideas.").

(** The world after a generation that failed with [e]. *)
Definition generation_failed (e : Exn) (w : World) : World :=
  let st := state w in
  mkWorld
    (mkAppState (industry st) (keywords st) (selectedModifiers st)
       (ideas st) (favorites st) false (Some GENERATION_ERROR) None Generate)
    (localStorage w) (console w ++ [mkDiagnostic None e])
    (outbound w ++ [request_of st]).

(** The world after a generation that parsed [v]. *)
Definition generation_succeeded (v : JSON.value) (w : World) : World :=
  let st := state w in
  mkWorld
    (mkAppState (industry st) (keywords st) (selectedModifiers st)
       v (favorites st) false None None Generate)
    (localStorage w) (console w) (outbound w ++ [request_of st]).

(** Text made of JSON whitespace only. *)
Abbreviation blank := (Forall (λ c, JSON.is_ws c = true)).

(** A code unit that can extend a number lexeme. *)
Definition continues_number (c : N) : bool :=
  JSON.is_digit c || (c =? 46) || (c =? 101) || (c =? 69).

(** Text at which a number lexeme ends. *)
Definition stops (r : jsstring) : Prop :=
  match r with
  | [] => True
  | c :: _ => continues_number c = false
  end.

(** Text whose first code unit is not [p]. *)
Definition hd_not (p : N → bool) (x : jsstring) : Prop :=
  match x with
  | [] => True
  | c :: _ => p c = false
  end.

(** The code units of a number lexeme. *)
Definition lexical (c : N) : Prop :=
  JSON.is_digit c = true ∨ c = 43 ∨ c = 45 ∨ c = 46 ∨ c = 69 ∨ c = 101.

(** Text that begins and ends with a code unit [trim] keeps. *)
Definition solid (s : jsstring) : Prop :=
  JSString.is_white <$> head s = Some false
  ∧ JSString.is_white <$> last s = Some false.

(** What a successful [read_value] tells: the text is whitespace, the
    value's own text, and the rest; the value's own text reads the same in
    front of any rest at which a number would end, with fuel twice its
    length. *)
Definition value_frame (f : nat) : Prop :=
  ∀ s v r, JSON.read_value f s = Some (v, r) →
    ∃ lead core, s = lead ++ core ++ r ∧ blank lead ∧ solid core
      ∧ ∀ f' x, (2 * length core ≤ f')%nat → stops x →
                JSON.read_value f' (core ++ x) = Some (v, x).

(** The same for the elements of an array, which end with the bracket. *)
Definition elements_frame (f : nat) : Prop :=
  ∀ s vs r, JSON.read_elements f s = Some (vs, r) →
    ∃ init, s = (init ++ [93]) ++ r
      ∧ (∃ c t, JSON.skip_ws (init ++ [93]) = c :: t)
      ∧ ∀ f' x, (2 * length (init ++ [93%N]) ≤ f')%nat →
                JSON.read_elements f' ((init ++ [93]) ++ x) = Some (vs, x).

(** The same for the members of an object, which end with the brace. *)
Definition members_frame (f : nat) : Prop :=
  ∀ s ms r, JSON.read_members f s = Some (ms, r) →
    ∃ init, s = (init ++ [125]) ++ r
      ∧ (∃ c t, JSON.skip_ws (init ++ [125]) = c :: t)
      ∧ ∀ f' x, (2 * length (init ++ [125%N]) ≤ f')%nat →
                JSON.read_members f' ((init ++ [125]) ++ x) = Some (ms, x).


(** ** Modifiers *)

(** [PREDEFINED_MODIFIERS] *)
Definition PREDEFINED_MODIFIERS : list jsstring :=
  JSString.lit <$> ["Tech"; "Eco"; "Global"; "Labs"; "Hub"; "AI"; "Smart";
                    "Pro"; "Cloud"; "Data"; "Health"; "Fin"]%string.

(** The updater that [toggleModifier] hands to [setSelectedModifiers]:
    [prev => prev.includes(mod) ? prev.filter(m => m !== mod) : [...prev, mod]]. *)
Definition toggleModifier (modifier : jsstring) (prev : list jsstring)
  : list jsstring :=
  if bool_decide (modifier ∈ prev) then filter (λ m, m ≠ modifier) prev
  else prev ++ [modifier].

(** A click on a modifier button. *)
Definition toggleModifier_click (modifier : jsstring) : Handler unit :=
  update (λ st, mkAppState (industry st) (keywords st)
                  (toggleModifier modifier (selectedModifiers st)) (ideas st)
                  (favorites st) (loading st) (error st) (copiedIndex st)
                  (view st)).

(** The selection after clicks on the given buttons, from the first render. *)
Definition select (clicks : list jsstring) : list jsstring :=
  foldl (λ selected modifier, toggleModifier modifier selected) [] clicks.

(** ** The generate button and the Enter key *)

(** [disabled={loading || !industry.trim()}] *)
Definition generate_disabled (st : AppState) : bool :=
  loading st || negb (JSString.truthy (JSString.trim (industry st))).

(** [onClick={generateIdeas}] on a button that fires no click while it is
    disabled. *)
Definition generate_click (ai : Service) : Handler unit :=
  λ w, if generate_disabled (state w) then (Returned (), w)
       else generateIdeas ai w.

(** [onKeyDown={(e) => e.key === 'Enter' && generateIdeas()}] on both text
    inputs. *)
Definition onKeyDown (ai : Service) (key : jsstring) : Handler unit :=
  λ w, if bool_decide (key = JSString.lit "Enter") then generateIdeas ai w
       else (Returned (), w).

(** The world with the four slots that [generateIdeas] overwrites set to
    other values. *)
Definition with_status (b : bool) (e : option jsstring) (i : option nat)
  (v : View) (w : World) : World :=
  let st := state w in
  mkWorld (mkAppState (industry st) (keywords st) (selectedModifiers st)
             (ideas st) (favorites st) b e i v)
          (localStorage w) (console w) (outbound w).

(** ** The rendered list *)

(** [String(index)] for an array index: its decimal digits. *)
Definition decimal (index : nat) : jsstring :=
  JSString.lit (NilEmpty.string_of_uint (Nat.to_uint index)).

(** The React key of a row. *)
Definition item_key (idea : StartupIdea) (index : nat) : jsstring :=
  name idea ++ [45] ++ decimal index.

(** The keys of [list.map((idea, index) => <li key=... >)]. *)
Definition item_keys (l : list StartupIdea) : list jsstring :=
  imap (λ index idea, item_key idea index) l.

(** ** More sample data *)

(** The healthcare form while a generation is in flight. *)
Definition healthcare_loading : World :=
  with_status true None None Generate healthcare.

(** The text of one idea behind a no-break space and before a byte order
    mark. *)
Definition padded_payload : jsstring :=
  [160] ++ JSON_stringify [vitalis] ++ [65279].

(** ** The two halves of a generation *)

(** [generateIdeas] is an [async] function with one [await].  Handing the
    request to the service is all that the call does before it suspends. *)
Definition send (request : Request) : Handler unit :=
  λ w, (Returned (), mkWorld (state w) (localStorage w) (console w)
                             (outbound w ++ [request])).

(** What runs in the handler of the click or of the key, up to the [await]:
    the guard, the four setters and the request.  The result tells whether
    a request went out. *)
Definition generate_begin : Handler bool :=
  λ w,
    let st := state w in
    if negb (JSString.truthy (JSString.trim (industry st)))
    then (Returned false, w)
    else
      (setLoading true;;
       setError None;;
       setCopiedIndex None;;
       setView Generate;;
       send (request_of st);;
       mret true) w.

(** What runs once the awaited call has settled with [reply]: the rest of
    the [try] block, the [catch] clause and the [finally] clause. *)
Definition generate_resume (reply : Reply) : Handler unit :=
  try_catch_finally
    (response ← match reply with
                | Fulfilled response => mret response
                | Rejected reason => throw reason
                end;
     let jsonStr := JSString.trim <$> text response in
     match jsonStr with
     | Some payload =>
         if JSString.truthy payload then
           parsedIdeas ← JSON_parse payload;
           setIdeas parsedIdeas
         else throw (Error (JSString.lit "Failed to generate ideas."))
     | None => throw (Error (JSString.lit "Failed to generate ideas."))
     end)
    (λ err,
       console_error None err;;
       setError (Some GENERATION_ERROR))
    (setLoading false).

(** ** Sessions *)

(** [onChange={(e) => setIndustry(e.target.value)}] *)
Definition setIndustry (value : jsstring) : Handler unit :=
  update (λ st, mkAppState value (keywords st) (selectedModifiers st)
                  (ideas st) (favorites st) (loading st) (error st)
                  (copiedIndex st) (view st)).

(** [onChange={(e) => setKeywords(e.target.value)}] *)
Definition setKeywords (value : jsstring) : Handler unit :=
  update (λ st, mkAppState (industry st) value (selectedModifiers st)
                  (ideas st) (favorites st) (loading st) (error st)
                  (copiedIndex st) (view st)).

(** [{view === 'generate' && (...)}]: the two inputs, the modifier buttons
    and the generate button are rendered on the generator tab only. *)
Definition form_shown (st : AppState) : bool :=
  match view st with
  | Generate => true
  | Favorites => false
  end.

(** The page after a reply: as for the hydrated favorites, the records
    describe it only while the ideas are an array of records. *)
Definition settled (w : World) : Mounted :=
  match as_ideas (ideas (state w)) with
  | Some _ => Ready w
  | None => IllTyped (ideas (state w))
  end.

(** What happens to a mounted page: every handler of the component, and
    what comes from outside.  The service is outside: its reply to a call
    that is under way is an event like the user's, and may come after any
    number of them.  [Star idea] is a click on the star of a row that shows
    [idea], on either tab.  [Copy index] is a click on the copy button of
    a row, [handleCopy(text, index)]: it writes to the clipboard, which is
    outside the world, calls [setCopiedIndex(index)] and starts the timer
    whose end is [CopyExpires]. *)
Inductive Event :=
| Reload
| ClickView (v : View)
| TypeIndustry (value : jsstring)
| TypeKeywords (value : jsstring)
| ClickModifier (modifier : jsstring)
| ClickGenerate
| PressKey (key : jsstring)
| Answer (reply : Reply)
| Star (idea : StartupIdea)
| Copy (index : nat)
| CopyExpires.

(** One event on a page with [pending] calls under way.  An event on a
    control that is not rendered does not happen: the form exists on the
    generator tab only, with a modifier button for each predefined
    modifier; a reply comes only to a call that is under way.  Which rows
    are shown is not tracked: the star of any record and the copy button
    of any index may be clicked, and a timer may end at any time.  A page
    load drops the calls of the page before. *)
Definition step (e : Event) (pending : nat) (w : World) : Mounted * nat :=
  let st := state w in
  match e with
  | Reload => (mount (localStorage w), 0%nat)
  | ClickView v => (Ready (snd (setView v w)), pending)
  | TypeIndustry value =>
      (Ready (if form_shown st then snd (setIndustry value w) else w),
       pending)
  | TypeKeywords value =>
      (Ready (if form_shown st then snd (setKeywords value w) else w),
       pending)
  | ClickModifier modifier =>
      (Ready (if form_shown st
                 && bool_decide (modifier ∈ PREDEFINED_MODIFIERS)
              then snd (toggleModifier_click modifier w) else w),
       pending)
  | ClickGenerate =>
      if form_shown st && negb (generate_disabled st) then
        match generate_begin w with
        | (Returned true, w') => (Ready w', S pending)
        | (_, w') => (Ready w', pending)
        end
      else (Ready w, pending)
  | PressKey key =>
      if form_shown st && bool_decide (key = JSString.lit "Enter") then
        match generate_begin w with
        | (Returned true, w') => (Ready w', S pending)
        | (_, w') => (Ready w', pending)
        end
      else (Ready w, pending)
  | Answer reply =>
      match pending with
      | O => (Ready w, O)
      | S pending' => (settled (snd (generate_resume reply w)), pending')
      end
  | Star idea => (Ready (snd (toggleFavorite_click idea w)), pending)
  | Copy index => (Ready (snd (setCopiedIndex (Some index) w)), pending)
  | CopyExpires => (Ready (snd (setCopiedIndex None w)), pending)
  end.

Fixpoint run (events : list Event) (pending : nat) (w : World) : Mounted :=
  match events with
  | [] => Ready w
  | e :: rest =>
      match step e pending w with
      | (Ready w', pending') => run rest pending' w'
      | (stopped, _) => stopped
      end
  end.


(** ** Vocabulary of the sessions *)




(** The world after a reply that failed with [e]. *)
Definition resumed_failed (e : Exn) (w : World) : World :=
  let st := state w in
  mkWorld
    (mkAppState (industry st) (keywords st) (selectedModifiers st)
       (ideas st) (favorites st) false (Some GENERATION_ERROR)
       (copiedIndex st) (view st))
    (localStorage w) (console w ++ [mkDiagnostic None e]) (outbound w).

(** The world after a reply that parsed as [v]. *)
Definition resumed_parsed (v : JSON.value) (w : World) : World :=
  let st := state w in
  mkWorld
    (mkAppState (industry st) (keywords st) (selectedModifiers st)
       v (favorites st) false (error st) (copiedIndex st) (view st))
    (localStorage w) (console w) (outbound w).


(** ** Sample sessions *)





(** * Proofs *)

(** ** The JSON reader and writer *)

Module JSONFacts.
Import JSON.

Ltac ncase :=
  match goal with
  | |- context [N.eqb ?a ?b] => destruct (N.eqb_spec a b)
  | |- context [N.ltb ?a ?b] => destruct (N.ltb_spec a b)
  | |- context [N.leb ?a ?b] => destruct (N.leb_spec a b)
  end.

(** Decide the tests on literal code units that the goal still shows. *)
Ltac decide_tests :=
  repeat match goal with
  | |- context [is_ws ?c] =>
      let b := eval vm_compute in (is_ws c) in
      match b with true => idtac | false => idtac end;
      change (is_ws c) with b; cbv iota
  | |- context [N.eqb ?a ?c] =>
      let b := eval vm_compute in (N.eqb a c) in
      match b with true => idtac | false => idtac end;
      change (N.eqb a c) with b; cbv iota
  end.

Ltac norm_app := repeat (progress (rewrite <- ?app_assoc; cbn [app])).

Ltac read_step := norm_app; cbn [skip_ws]; decide_tests.

(** Case analysis on every comparison of code units in sight. *)
Ltac units :=
  repeat match goal with
  | H : context [N.eqb ?a ?b] |- _ => destruct (N.eqb_spec a b); try lia
  | H : context [N.leb ?a ?b] |- _ => destruct (N.leb_spec a b); try lia
  | H : context [N.ltb ?a ?b] |- _ => destruct (N.ltb_spec a b); try lia
  | |- context [N.eqb ?a ?b] => destruct (N.eqb_spec a b); try lia
  | |- context [N.leb ?a ?b] => destruct (N.leb_spec a b); try lia
  | |- context [N.ltb ?a ?b] => destruct (N.ltb_spec a b); try lia
  end; cbn in *; try done; try lia.

Ltac lengths :=
  repeat rewrite ?length_app, ?length_cons in *; cbn [length] in *; lia.

(** *** Strings are read back as written *)

Lemma hex_value_digit d : d < 16 → hex_value (hex_digit d) = Some d.
Proof.
  intros Hd. unfold hex_value, hex_digit.
  destruct (N.ltb_spec d 10).
  - replace ((48 <=? 48 + d) && (48 + d <=? 57)) with true.
    + f_equal. lia.
    + symmetry. apply andb_true_iff. split; apply N.leb_le; lia.
  - replace ((48 <=? 87 + d) && (87 + d <=? 57)) with false.
    + replace ((97 <=? 87 + d) && (87 + d <=? 102)) with true.
      * f_equal. lia.
      * symmetry. apply andb_true_iff. split; apply N.leb_le; lia.
    + symmetry. apply andb_false_iff. right. apply N.leb_gt. lia.
Qed.

Lemma hex4_escape c :
  c < 65536 →
  hex4 (hex_digit (c / 4096 mod 16)) (hex_digit (c / 256 mod 16))
       (hex_digit (c / 16 mod 16)) (hex_digit (c mod 16)) = Some c.
Proof.
  intros Hc. unfold hex4.
  rewrite !hex_value_digit by (apply N.mod_lt; lia).
  f_equal.
  pose proof (N.div_mod c 16 ltac:(lia)) as H1.
  pose proof (N.div_mod (c / 16) 16 ltac:(lia)) as H2.
  pose proof (N.div_mod (c / 16 / 16) 16 ltac:(lia)) as H3.
  rewrite !N.Div0.div_div in H3. rewrite !N.Div0.div_div in H2.
  change (16 * 16) with 256 in *. change (256 * 16) with 4096 in *.
  assert (c / 4096 < 16) by (apply N.Div0.div_lt_upper_bound; lia).
  rewrite (N.mod_small (c / 4096) 16) in * by assumption.
  lia.
Qed.

Lemma read_units_plain c tail :
  c ≠ 34 → c ≠ 92 → 32 <= c →
  read_units (c :: tail) = cons_fst c (read_units tail).
Proof.
  intros H1 H2 H3. simpl.
  destruct (N.eqb_spec c 34); [done|].
  destruct (N.eqb_spec c 92); [done|].
  destruct (N.ltb_spec c 32); [lia|done].
Qed.

Lemma read_units_unit c tail :
  read_units (quote_unit c ++ tail) = cons_fst c (read_units tail).
Proof.
  unfold quote_unit.
  repeat (ncase; [subst; reflexivity|]).
  destruct ((c <? 32) || is_high_surrogate c || is_low_surrogate c) eqn:E.
  - assert (c < 65536) as Hc.
    { unfold is_high_surrogate, is_low_surrogate in E.
      repeat (apply orb_prop in E; destruct E as [E|E]);
        [apply N.ltb_lt in E; lia | |];
        apply andb_prop in E; destruct E as [_ E]; apply N.leb_le in E; lia. }
    unfold unicode_escape. cbn [app read_units].
    change (92 =? 34) with false. change (92 =? 92) with true.
    change (117 =? 117) with true. cbv iota.
    by rewrite hex4_escape.
  - apply orb_false_elim in E as [E _]. apply orb_false_elim in E as [E _].
    apply N.ltb_ge in E. by apply read_units_plain.
Qed.

Lemma quote_units_pair c d r :
  quote_units (c :: d :: r) =
  if is_high_surrogate c && is_low_surrogate d
  then c :: d :: quote_units r
  else quote_unit c ++ quote_units (d :: r).
Proof. reflexivity. Qed.

Lemma read_units_quote_units s rest :
  read_units (quote_units s ++ 34 :: rest) = Some (s, rest).
Proof.
  remember (length s) as n eqn:Hn.
  revert s Hn. induction (lt_wf n) as [n _ IH]. intros s ->.
  destruct s as [|c [|d r]].
  - reflexivity.
  - cbn [quote_units]. by rewrite read_units_unit.
  - rewrite quote_units_pair.
    destruct (is_high_surrogate c && is_low_surrogate d) eqn:E.
    + apply andb_prop in E as [Ec Ed].
      unfold is_high_surrogate in Ec. unfold is_low_surrogate in Ed.
      apply andb_prop in Ec as [Ec _]. apply andb_prop in Ed as [Ed _].
      apply N.leb_le in Ec, Ed.
      cbn [app]. rewrite !read_units_plain by lia.
      by rewrite (IH (length r) ltac:(simpl; lia) r eq_refl).
    + rewrite <- app_assoc, read_units_unit.
      by rewrite (IH (length (d :: r)) ltac:(simpl; lia) (d :: r) eq_refl).
Qed.

(** *** One step of each reader *)

Lemma read_value_unfold f s :
  read_value (S f) s =
  match skip_ws s with
  | [] => None
  | c :: r =>
      if c =? 34 then
        match read_units r with
        | Some (str, r') => Some (String str, r')
        | None => None
        end
      else if c =? 91 then
        match skip_ws r with
        | c' :: r' =>
            if c' =? 93 then Some (Array [], r')
            else match read_elements f r with
                 | Some (vs, r'') => Some (Array vs, r'')
                 | None => None
                 end
        | [] => None
        end
      else if c =? 123 then
        match skip_ws r with
        | c' :: r' =>
            if c' =? 125 then Some (Object [], r')
            else match read_members f r with
                 | Some (ms, r'') => Some (Object ms, r'')
                 | None => None
                 end
        | [] => None
        end
      else if c =? 110 then
        match expect [117; 108; 108] r with
        | Some r' => Some (Null, r')
        | None => None
        end
      else if c =? 116 then
        match expect [114; 117; 101] r with
        | Some r' => Some (Bool true, r')
        | None => None
        end
      else if c =? 102 then
        match expect [97; 108; 115; 101] r with
        | Some r' => Some (Bool false, r')
        | None => None
        end
      else
        match lex_number (c :: r) with
        | Some (lexeme, r') => Some (Number lexeme, r')
        | None => None
        end
  end.
Proof. reflexivity. Qed.

Lemma read_elements_unfold f s :
  read_elements (S f) s =
  match read_value f s with
  | None => None
  | Some (v, r) =>
      match skip_ws r with
      | [] => None
      | c :: r' =>
          if c =? 44 then
            match read_elements f r' with
            | Some (vs, r'') => Some (v :: vs, r'')
            | None => None
            end
          else if c =? 93 then Some ([v], r')
          else None
      end
  end.
Proof. reflexivity. Qed.

Lemma read_members_unfold f s :
  read_members (S f) s =
  match skip_ws s with
  | [] => None
  | c :: r =>
      if c =? 34 then
        match read_units r with
        | None => None
        | Some (k, r1) =>
            match skip_ws r1 with
            | [] => None
            | c1 :: r2 =>
                if c1 =? 58 then
                  match read_value f r2 with
                  | None => None
                  | Some (v, r3) =>
                      match skip_ws r3 with
                      | [] => None
                      | c3 :: r4 =>
                          if c3 =? 44 then
                            match read_members f r4 with
                            | Some (ms, r5) => Some ((k, v) :: ms, r5)
                            | None => None
                            end
                          else if c3 =? 125 then Some ([(k, v)], r4)
                          else None
                      end
                  end
                else None
            end
        end
      else None
  end.
Proof. reflexivity. Qed.

Lemma read_value_quote f s rest :
  read_value (S f) (quote s ++ rest) = Some (String s, rest).
Proof.
  rewrite read_value_unfold. unfold quote. read_step. by rewrite read_units_quote_units.
Qed.

(** A member [key:text] followed by a comma and further members. *)
Lemma read_members_comma f k text v more ms rest :
  read_value f (text ++ 44 :: more) = Some (v, 44 :: more) →
  read_members f more = Some (ms, rest) →
  read_members (S f) (quote k ++ 58 :: text ++ 44 :: more)
  = Some ((k, v) :: ms, rest).
Proof.
  intros Hv Hms. rewrite read_members_unfold. unfold quote.
  read_step. rewrite read_units_quote_units.
  read_step. rewrite Hv. read_step. by rewrite Hms.
Qed.

(** The last member [key:text] and the closing brace. *)
Lemma read_members_brace f k text v rest :
  read_value f (text ++ 125 :: rest) = Some (v, 125 :: rest) →
  read_members (S f) (quote k ++ 58 :: text ++ 125 :: rest)
  = Some ([(k, v)], rest).
Proof.
  intros Hv. rewrite read_members_unfold. unfold quote.
  read_step. rewrite read_units_quote_units.
  read_step. rewrite Hv. by read_step.
Qed.

(** An object whose first member starts right after the brace. *)
Lemma read_value_object f k more ms rest :
  read_members f (quote k ++ more) = Some (ms, rest) →
  read_value (S f) (123 :: quote k ++ more) = Some (Object ms, rest).
Proof.
  intros Hms. rewrite read_value_unfold. revert Hms. unfold quote.
  read_step. by intros ->.
Qed.

(** *** Number lexemes *)

Lemma lexical_not_white c : lexical c → JSString.is_white c = false.
Proof.
  unfold lexical, is_digit, JSString.is_white.
  intros [H|[->|[->|[->|[->| ->]]]]]; [|reflexivity..]. units.
Qed.

Lemma ws_white c : is_ws c = true → JSString.is_white c = true.
Proof. unfold is_ws, JSString.is_white. intros H. units. Qed.

Lemma ws_stops c r : is_ws c = true → stops (c :: r).
Proof. unfold is_ws, stops, continues_number, is_digit. intros H. units. Qed.

Lemma stops_not_digit c r : stops (c :: r) → is_digit c = false.
Proof.
  unfold stops, continues_number. intros H.
  by destruct (is_digit c).
Qed.

Lemma span_digits_spec s :
  ∃ d r, span_digits s = (d, r) ∧ s = d ++ r
         ∧ Forall (λ c, is_digit c = true) d.
Proof.
  induction s as [|c s (d & r & IH & -> & Hd)].
  - by exists [], [].
  - cbn [span_digits]. destruct (is_digit c) eqn:E.
    + rewrite IH. exists (c :: d), r. split_and!; [done..|].
      by constructor.
    + by exists [], (c :: d ++ r).
Qed.

Lemma span_digits_frame d x :
  Forall (λ c, is_digit c = true) d →
  match x with [] => True | c :: _ => is_digit c = false end →
  span_digits (d ++ x) = (d, x).
Proof.
  intros Hd Hx. induction Hd as [|c d Hc _ IH].
  - destruct x as [|c x]; [done|]. cbn. by rewrite Hx.
  - cbn. by rewrite Hc, IH.
Qed.

Lemma Forall_digit_lexical d :
  Forall (λ c, is_digit c = true) d → Forall lexical d.
Proof. intros H. eapply Forall_impl; [done|]. intros c Hc. by left. Qed.

Lemma lex_int_frame s i r :
  lex_int s = Some (i, r) →
  s = i ++ r ∧ Forall lexical i
  ∧ (∃ c t, i = c :: t ∧ is_digit c = true)
  ∧ ∀ x, hd_not is_digit x → lex_int (i ++ x) = Some (i, x).
Proof.
  destruct s as [|c s]; [done|]. cbn [lex_int].
  destruct (N.eqb_spec c 48) as [->|Hc].
  - intros [= <- <-]. split_and!; [done| |by eauto|done].
    constructor; [by left|constructor].
  - destruct (is_digit c) eqn:E; [|done].
    destruct (span_digits_spec s) as (d & r' & Hs & -> & Hd).
    rewrite Hs. intros [= <- <-]. split_and!; [done| |by eauto|].
    + constructor; [by left|by apply Forall_digit_lexical].
    + intros x Hx. cbn [app lex_int].
      destruct (N.eqb_spec c 48); [done|]. rewrite E.
      by rewrite span_digits_frame.
Qed.

Lemma lex_frac_frame s fr r :
  lex_frac s = Some (fr, r) →
  s = fr ++ r ∧ Forall lexical fr
  ∧ (fr = [] ∨ ∃ d, fr = 46 :: d)
  ∧ ∀ x, hd_not (λ c, is_digit c || (c =? 46)) x →
         lex_frac (fr ++ x) = Some (fr, x).
Proof.
  assert (∀ x, hd_not (λ c, is_digit c || (c =? 46)) x →
               lex_frac x = Some ([], x)) as Hnone.
  { intros [|c x] Hx; [done|]. cbn in *.
    apply orb_false_elim in Hx as [_ ->]. done. }
  destruct s as [|c s]; [intros [= <- <-]; by auto|].
  cbn [lex_frac]. destruct (N.eqb_spec c 46) as [->|Hc].
  - destruct (span_digits_spec s) as (d & r' & Hs & -> & Hd).
    rewrite Hs. destruct d as [|c0 d]; [done|]. intros [= <- <-].
    split_and!; [done| |by eauto|].
    + constructor; [unfold lexical; tauto|by apply Forall_digit_lexical].
    + intros x Hx. cbn [app lex_frac]. change (46 =? 46) with true.
      cbv iota. change (c0 :: d ++ x) with ((c0 :: d) ++ x).
      rewrite span_digits_frame; [done..|].
      destruct x; [done|]. cbn in *. by apply orb_false_elim in Hx as [-> _].
  - intros [= <- <-]. split_and!; [done|constructor|by left|done].
Qed.

Lemma lex_exp_frame s e r :
  lex_exp s = Some (e, r) →
  s = e ++ r ∧ Forall lexical e
  ∧ (e = [] ∨ ∃ c t, e = c :: t ∧ (c = 101 ∨ c = 69))
  ∧ ∀ x, hd_not (λ c, is_digit c || (c =? 101) || (c =? 69)) x →
         lex_exp (e ++ x) = Some (e, x).
Proof.
  assert (∀ x, hd_not (λ c, is_digit c || (c =? 101) || (c =? 69)) x →
               lex_exp x = Some ([], x)) as Hnone.
  { intros [|c x] Hx; [done|]. cbn in *.
    apply orb_false_elim in Hx as [Hx ->].
    apply orb_false_elim in Hx as [_ ->]. done. }
  assert (∀ x, hd_not (λ c, is_digit c || (c =? 101) || (c =? 69)) x →
               match x with [] => True | c :: _ => is_digit c = false end)
    as Hdigit.
  { intros [|c x] Hx; [done|]. cbn in *.
    apply orb_false_elim in Hx as [Hx _].
    by apply orb_false_elim in Hx as [-> _]. }
  destruct s as [|c s]; [intros [= <- <-]; by auto|].
  cbn [lex_exp]. destruct ((c =? 101) || (c =? 69)) eqn:Ec;
    [|intros [= <- <-]; split_and!; [done|constructor|by left|done]].
  assert (c = 101 ∨ c = 69) as Hc.
  { apply orb_prop in Ec as [Ec|Ec]; apply N.eqb_eq in Ec; tauto. }
  assert (lexical c) as Hlc by (unfold lexical; tauto).
  destruct s as [|sg s].
  - done.
  - destruct ((sg =? 43) || (sg =? 45)) eqn:Es.
    + assert (lexical sg) as Hsg.
      { apply orb_prop in Es as [Es|Es]; apply N.eqb_eq in Es;
          unfold lexical; tauto. }
      destruct (span_digits_spec s) as (d & r' & Hs & -> & Hd).
      rewrite Hs. destruct d as [|c0 d]; [done|]. intros [= <- <-].
      split_and!; [done| |by eauto|].
      * constructor; [done|]. cbn [app]. constructor; [done|].
        by apply Forall_digit_lexical.
      * intros x Hx. cbn [app lex_exp]. rewrite Ec, Es.
        change (c0 :: d ++ x) with ((c0 :: d) ++ x).
        by rewrite span_digits_frame; [|done|apply Hdigit].
    + destruct (span_digits_spec (sg :: s)) as (d & r' & Hs & Hsplit & Hd).
      rewrite Hs. destruct d as [|c0 d]; [done|]. intros [= <- <-].
      cbn [app] in Hsplit. injection Hsplit as -> ->.
      split_and!; [done| |by eauto|].
      * constructor; [done|]. by apply Forall_digit_lexical.
      * intros x Hx. cbn [app lex_exp]. rewrite Ec, Es.
        change (c0 :: d ++ x) with ((c0 :: d) ++ x).
        by rewrite span_digits_frame; [|done|apply Hdigit].
Qed.

Lemma lex_number_frame s lexeme r :
  lex_number s = Some (lexeme, r) →
  s = lexeme ++ r ∧ lexeme ≠ [] ∧ Forall lexical lexeme
  ∧ ∀ x, stops x → lex_number (lexeme ++ x) = Some (lexeme, x).
Proof.
  unfold lex_number.
  set (signed := match s with
                 | c :: r0 => if c =? 45 then ([45], r0) else ([], s)
                 | [] => ([], [])
                 end).
  assert (s = signed.1 ++ signed.2
          ∧ (signed.1 = [] ∨ signed.1 = [45])) as [Hs Hsign].
  { subst signed. destruct s as [|c s]; [by auto|].
    destruct (N.eqb_spec c 45) as [->|]; by auto. }
  destruct signed as [sign s1]. cbn [fst snd] in *.
  destruct (lex_int s1) as [[i s2]|] eqn:Hi; [|done].
  destruct (lex_frac s2) as [[fr s3]|] eqn:Hf; [|done].
  destruct (lex_exp s3) as [[e s4]|] eqn:He; [|done].
  intros [= <- <-].
  apply lex_int_frame in Hi as (-> & Hli & (c0 & t & -> & Hc0) & Hi).
  apply lex_frac_frame in Hf as (-> & Hlf & Hfshape & Hf).
  apply lex_exp_frame in He as (-> & Hle & Heshape & He).
  assert (Forall lexical sign) as Hls.
  { destruct Hsign as [-> | ->]; [constructor|].
    constructor; [|constructor]. unfold lexical; tauto. }
  split_and!.
  - by rewrite Hs, <- !app_assoc.
  - destruct sign; done.
  - by rewrite !Forall_app.
  - intros x Hx.
    assert (hd_not (λ c, is_digit c || (c =? 101) || (c =? 69)) x) as Hx3.
    { destruct x as [|c x]; [done|]. unfold stops, continues_number in Hx.
      cbn. destruct (is_digit c), (c =? 46), (c =? 101), (c =? 69); done. }
    assert (hd_not (λ c, is_digit c || (c =? 46)) (e ++ x)) as Hx2.
    { destruct Heshape as [->|(c & t' & -> & Hc)].
      - destruct x as [|c x]; [done|].
        unfold stops, continues_number in Hx. cbn.
        destruct (is_digit c), (c =? 46); done.
      - cbn. destruct Hc as [-> | ->]; reflexivity. }
    assert (hd_not is_digit (fr ++ e ++ x)) as Hx1.
    { destruct Hfshape as [->|(d & ->)]; [|reflexivity].
      cbn [app]. destruct (e ++ x) as [|c y]; [done|]. cbn in *.
      by apply orb_false_elim in Hx2 as [-> _]. }
    rewrite <- !app_assoc.
    assert (c0 ≠ 45) as Hc45.
    { intros ->. done. }
    destruct Hsign as [-> | ->]; cbn [app].
    + destruct (N.eqb_spec c0 45); [done|].
      change (c0 :: t ++ fr ++ e ++ x) with ((c0 :: t) ++ fr ++ e ++ x).
      by rewrite Hi, Hf, He.
    + change (45 =? 45) with true. cbv iota.
      change (c0 :: t ++ fr ++ e ++ x) with ((c0 :: t) ++ fr ++ e ++ x).
      by rewrite Hi, Hf, He.
Qed.

Lemma solid_lexical s : s ≠ [] → Forall lexical s → solid s.
Proof.
  intros Hne Hs. split.
  - destruct s as [|c s]; [done|]. apply Forall_cons in Hs as [Hc _].
    cbn. by rewrite lexical_not_white.
  - destruct (last s) as [c|] eqn:E.
    + cbn. rewrite lexical_not_white; [done|].
      rewrite Forall_forall in Hs. apply Hs.
      apply last_Some in E as [s' ->]. apply elem_of_app. right. left.
    + by apply last_None in E.
Qed.

(** *** Whitespace and the pieces of a value *)

Lemma skip_ws_peel s c t :
  skip_ws s = c :: t →
  ∃ lead, s = lead ++ c :: t ∧ blank lead ∧ is_ws c = false.
Proof.
  induction s as [|d s IH]; [done|]. cbn [skip_ws].
  destruct (is_ws d) eqn:E.
  - intros (lead & -> & Hl & Hc)%IH. exists (d :: lead).
    split_and!; [done| by constructor | done].
  - intros [= -> ->]. by exists [].
Qed.

Lemma skip_ws_lead lead x : blank lead → skip_ws (lead ++ x) = skip_ws x.
Proof.
  induction 1 as [|c lead Hc _ IH]; [done|]. cbn. by rewrite Hc.
Qed.

Lemma skip_ws_solid c x : is_ws c = false → skip_ws (c :: x) = c :: x.
Proof. intros H. cbn. by rewrite H. Qed.

Lemma skip_ws_nil s : skip_ws s = [] → blank s.
Proof.
  induction s as [|c s IH]; [constructor|]. cbn.
  destruct (is_ws c) eqn:E; [|done]. intros H. constructor; auto.
Qed.

Lemma skip_ws_app_cons b c t x :
  skip_ws b = c :: t → skip_ws (b ++ x) = c :: t ++ x.
Proof.
  intros (lead & -> & Hl & Hc)%skip_ws_peel.
  rewrite <- app_assoc, skip_ws_lead by done. cbn [app].
  by rewrite skip_ws_solid.
Qed.

Lemma not_white_not_ws c : JSString.is_white c = false → is_ws c = false.
Proof.
  intros H. destruct (is_ws c) eqn:E; [|done].
  apply ws_white in E. congruence.
Qed.

Lemma blank_white lead :
  blank lead → Forall (λ c, JSString.is_white c = true) lead.
Proof. intros H. eapply Forall_impl; [done|]. apply ws_white. Qed.

Lemma stops_lead lead c rest :
  blank lead → continues_number c = false → stops (lead ++ c :: rest).
Proof.
  intros [|d lead' Hd _] Hc; [done|]. by apply (ws_stops d).
Qed.

Lemma read_value_lead f lead x :
  blank lead → read_value f (lead ++ x) = read_value f x.
Proof.
  intros H. destruct f; [done|].
  by rewrite !read_value_unfold, skip_ws_lead.
Qed.

Lemma expect_frame word s r :
  expect word s = Some r → s = word ++ r.
Proof.
  revert s. induction word as [|w word IH]; intros s; cbn.
  - by intros [= ->].
  - destruct s as [|c s]; [done|].
    destruct (N.eqb_spec c w) as [->|]; [|done].
    by intros ->%IH.
Qed.

Lemma expect_app word x : expect word (word ++ x) = Some x.
Proof.
  induction word as [|w word IH]; [done|]. cbn.
  by rewrite N.eqb_refl.
Qed.

Lemma cons_fst_Some {A B} (c : A) (o : option (list A * B)) s r :
  cons_fst c o = Some (s, r) → ∃ s', s = c :: s' ∧ o = Some (s', r).
Proof. destruct o as [[s' r']|]; [|done]. intros [= <- <-]. eauto. Qed.

Lemma read_units_frame s str r :
  read_units s = Some (str, r) →
  ∃ body, s = body ++ 34 :: r
          ∧ ∀ x, read_units (body ++ 34 :: x) = Some (str, x).
Proof.
  remember (length s) as n eqn:Hn. revert s str r Hn.
  induction (lt_wf n) as [n _ IH]. intros s str r -> Hs.
  destruct s as [|c s]; [done|]. cbn [read_units] in Hs.
  destruct (c =? 34) eqn:E34.
  { apply N.eqb_eq in E34 as ->. injection Hs as <- <-.
    exists []. split; [done|]. intros x. reflexivity. }
  destruct (c =? 92) eqn:E92.
  - apply N.eqb_eq in E92 as ->. destruct s as [|e s]; [done|].
    destruct (e =? 117) eqn:E117.
    + apply N.eqb_eq in E117 as ->.
      destruct s as [|h1 [|h2 [|h3 [|h4 s]]]]; try done.
      destruct (hex4 h1 h2 h3 h4) as [u|] eqn:Hu; [|done].
      apply cons_fst_Some in Hs as (str' & -> & Hs).
      destruct (IH (length s) ltac:(cbn; lia) s str' r eq_refl Hs)
        as (body & -> & Hbody).
      exists (92 :: 117 :: h1 :: h2 :: h3 :: h4 :: body).
      split; [done|]. intros x. cbn [app read_units].
      change (92 =? 34) with false. change (92 =? 92) with true.
      change (117 =? 117) with true. cbv iota.
      by rewrite Hu, Hbody.
    + destruct (unescape e) as [u|] eqn:Hu; [|done].
      apply cons_fst_Some in Hs as (str' & -> & Hs).
      destruct (IH (length s) ltac:(cbn; lia) s str' r eq_refl Hs)
        as (body & -> & Hbody).
      exists (92 :: e :: body). split; [done|]. intros x.
      cbn [app read_units].
      change (92 =? 34) with false. change (92 =? 92) with true.
      cbv iota. by rewrite E117, Hu, Hbody.
  - destruct (c <? 32) eqn:E32; [done|].
    apply cons_fst_Some in Hs as (str' & -> & Hs).
    destruct (IH (length s) ltac:(cbn; lia) s str' r eq_refl Hs)
      as (body & -> & Hbody).
    exists (c :: body). split; [done|]. intros x. cbn [app read_units].
    by rewrite E34, E92, E32, Hbody.
Qed.

Lemma solid_ends c init d :
  JSString.is_white c = false → JSString.is_white d = false →
  solid (c :: init ++ [d]).
Proof.
  intros Hc Hd. split; cbn [head fmap option_fmap option_map].
  - by rewrite Hc.
  - rewrite app_comm_cons, last_snoc. cbn. by rewrite Hd.
Qed.

(** *** What a reader reads does not depend on what follows *)

Lemma solid_head core :
  solid core → ∃ c t, core = c :: t ∧ is_ws c = false.
Proof.
  intros [H _]. destruct core as [|c t]; [done|]. exists c, t.
  split; [done|]. apply not_white_not_ws. cbn in H. congruence.
Qed.

Lemma value_frame_step f :
  elements_frame f → members_frame f → value_frame (S f).
Proof.
  intros IHe IHm s v r. rewrite read_value_unfold.
  destruct (skip_ws s) as [|c s1] eqn:Hskip; [done|].
  apply skip_ws_peel in Hskip as (lead & -> & Hlead & Hc).
  destruct (c =? 34) eqn:E34.
  { (* a string *)
    apply N.eqb_eq in E34 as ->.
    destruct (read_units s1) as [[str r']|] eqn:Hu; [|done].
    intros [= <- <-].
    apply read_units_frame in Hu as (body & -> & Hbody).
    exists lead, (34 :: body ++ [34]). split_and!.
    - by norm_app.
    - done.
    - by apply solid_ends.
    - intros [|f'] x Hf' _; [lengths|].
      rewrite read_value_unfold. norm_app. rewrite skip_ws_solid by done.
      change (34 =? 34) with true. cbv iota. by rewrite Hbody. }
  destruct (c =? 91) eqn:E91.
  { (* an array *)
    apply N.eqb_eq in E91 as ->.
    destruct (skip_ws s1) as [|c' s2] eqn:Hskip2; [done|].
    destruct (c' =? 93) eqn:E93.
    - apply N.eqb_eq in E93 as ->. intros [= <- <-].
      apply skip_ws_peel in Hskip2 as (lead2 & -> & Hlead2 & _).
      exists lead, (91 :: lead2 ++ [93]). split_and!.
      + by norm_app.
      + done.
      + by apply solid_ends.
      + intros [|f'] x Hf' _; [lengths|].
        rewrite read_value_unfold. norm_app. rewrite skip_ws_solid by done.
        change (91 =? 34) with false. change (91 =? 91) with true.
        cbv iota. rewrite skip_ws_lead, skip_ws_solid by done.
        by change (93 =? 93) with true.
    - destruct (read_elements f s1) as [[vs r']|] eqn:He; [|done].
      intros [= <- <-].
      apply IHe in He as (init & -> & (c2 & t2 & Hhead) & Hre).
      rewrite (skip_ws_app_cons _ _ _ _ Hhead) in Hskip2.
      injection Hskip2 as -> _.
      exists lead, (91 :: init ++ [93]). split_and!.
      + by norm_app.
      + done.
      + by apply solid_ends.
      + intros [|f'] x Hf' _; [lengths|].
        rewrite read_value_unfold.
        change ((91 :: init ++ [93]) ++ x) with (91 :: (init ++ [93]) ++ x).
        rewrite skip_ws_solid by done.
        change (91 =? 34) with false. change (91 =? 91) with true.
        cbv iota. rewrite (skip_ws_app_cons _ _ _ _ Hhead), E93.
        rewrite Hre; [done|lengths]. }
  destruct (c =? 123) eqn:E123.
  { (* an object *)
    apply N.eqb_eq in E123 as ->.
    destruct (skip_ws s1) as [|c' s2] eqn:Hskip2; [done|].
    destruct (c' =? 125) eqn:E125.
    - apply N.eqb_eq in E125 as ->. intros [= <- <-].
      apply skip_ws_peel in Hskip2 as (lead2 & -> & Hlead2 & _).
      exists lead, (123 :: lead2 ++ [125]). split_and!.
      + by norm_app.
      + done.
      + by apply solid_ends.
      + intros [|f'] x Hf' _; [lengths|].
        rewrite read_value_unfold. norm_app. rewrite skip_ws_solid by done.
        change (123 =? 34) with false. change (123 =? 91) with false.
        change (123 =? 123) with true.
        cbv iota. rewrite skip_ws_lead, skip_ws_solid by done.
        by change (125 =? 125) with true.
    - destruct (read_members f s1) as [[ms r']|] eqn:Hm; [|done].
      intros [= <- <-].
      apply IHm in Hm as (init & -> & (c2 & t2 & Hhead) & Hre).
      rewrite (skip_ws_app_cons _ _ _ _ Hhead) in Hskip2.
      injection Hskip2 as -> _.
      exists lead, (123 :: init ++ [125]). split_and!.
      + by norm_app.
      + done.
      + by apply solid_ends.
      + intros [|f'] x Hf' _; [lengths|].
        rewrite read_value_unfold.
        change ((123 :: init ++ [125]) ++ x)
          with (123 :: (init ++ [125]) ++ x).
        rewrite skip_ws_solid by done.
        change (123 =? 34) with false. change (123 =? 91) with false.
        change (123 =? 123) with true.
        cbv iota. rewrite (skip_ws_app_cons _ _ _ _ Hhead), E125.
        rewrite Hre; [done|lengths]. }
  destruct (c =? 110) eqn:E110.
  { apply N.eqb_eq in E110 as ->.
    destruct (expect [117; 108; 108] s1) as [r'|] eqn:Hx; [|done].
    intros [= <- <-]. apply expect_frame in Hx as ->.
    exists lead, [110; 117; 108; 108]. split_and!; [done..| |].
    - by split.
    - intros [|f'] x Hf' _; [lengths|]. reflexivity. }
  destruct (c =? 116) eqn:E116.
  { apply N.eqb_eq in E116 as ->.
    destruct (expect [114; 117; 101] s1) as [r'|] eqn:Hx; [|done].
    intros [= <- <-]. apply expect_frame in Hx as ->.
    exists lead, [116; 114; 117; 101]. split_and!; [done..| |].
    - by split.
    - intros [|f'] x Hf' _; [lengths|]. reflexivity. }
  destruct (c =? 102) eqn:E102.
  { apply N.eqb_eq in E102 as ->.
    destruct (expect [97; 108; 115; 101] s1) as [r'|] eqn:Hx; [|done].
    intros [= <- <-]. apply expect_frame in Hx as ->.
    exists lead, [102; 97; 108; 115; 101]. split_and!; [done..| |].
    - by split.
    - intros [|f'] x Hf' _; [lengths|]. reflexivity. }
  (* a number *)
  destruct (lex_number (c :: s1)) as [[lexeme r']|] eqn:Hn; [|done].
  intros [= <- <-].
  apply lex_number_frame in Hn as (Hsplit & Hne & Hlex & Hre).
  destruct lexeme as [|c0 lexeme]; [done|].
  cbn [app] in Hsplit. injection Hsplit as <- ->.
  exists lead, (c :: lexeme). split_and!; [done..| |].
  - by apply solid_lexical.
  - intros [|f'] x Hf' Hx; [lengths|].
    rewrite read_value_unfold. cbn [app]. rewrite skip_ws_solid by done.
    rewrite E34, E91, E123, E110, E116, E102.
    change (c :: lexeme ++ x) with ((c :: lexeme) ++ x).
    by rewrite Hre.
Qed.

Lemma elements_frame_step f :
  value_frame f → elements_frame f → elements_frame (S f).
Proof.
  intros IHv IHe s vs r. rewrite read_elements_unfold.
  destruct (read_value f s) as [[v r1]|] eqn:Hv; [|done].
  destruct (skip_ws r1) as [|c r2] eqn:Hskip; [done|].
  apply IHv in Hv as (lead & core & -> & Hlead & Hcore & Hre).
  apply skip_ws_peel in Hskip as (lead2 & -> & Hlead2 & Hc).
  destruct (solid_head _ Hcore) as (c0 & t0 & -> & Hc0).
  destruct (c =? 44) eqn:E44.
  - apply N.eqb_eq in E44 as ->.
    destruct (read_elements f r2) as [[vs' r']|] eqn:He; [|done].
    intros [= <- <-].
    apply IHe in He as (init & -> & _ & Hre').
    exists (lead ++ (c0 :: t0) ++ lead2 ++ 44 :: init). split_and!.
    + by norm_app.
    + exists c0, (t0 ++ lead2 ++ 44 :: init ++ [93]).
      norm_app. by rewrite skip_ws_lead, skip_ws_solid.
    + intros [|f'] x Hf'; [lengths|].
      rewrite read_elements_unfold.
      replace (((lead ++ (c0 :: t0) ++ lead2 ++ 44 :: init) ++ [93]) ++ x)
        with (lead ++ (c0 :: t0) ++ lead2 ++ 44 :: (init ++ [93]) ++ x)
        by (by norm_app).
      rewrite read_value_lead by done.
      rewrite Hre; [|lengths|by apply stops_lead].
      rewrite skip_ws_lead, skip_ws_solid by done.
      change (44 =? 44) with true. cbv iota.
      rewrite Hre'; [done|lengths].
  - destruct (c =? 93) eqn:E93; [|done].
    apply N.eqb_eq in E93 as ->. intros [= <- <-].
    exists (lead ++ (c0 :: t0) ++ lead2). split_and!.
    + by norm_app.
    + exists c0, (t0 ++ lead2 ++ [93]).
      norm_app. by rewrite skip_ws_lead, skip_ws_solid.
    + intros [|f'] x Hf'; [lengths|].
      rewrite read_elements_unfold.
      replace (((lead ++ (c0 :: t0) ++ lead2) ++ [93]) ++ x)
        with (lead ++ (c0 :: t0) ++ lead2 ++ 93 :: x)
        by (by norm_app).
      rewrite read_value_lead by done.
      rewrite Hre; [|lengths|by apply stops_lead].
      rewrite skip_ws_lead, skip_ws_solid by done.
      by change (93 =? 44) with false.
Qed.

Lemma members_frame_step f :
  value_frame f → members_frame f → members_frame (S f).
Proof.
  intros IHv IHm s ms r. rewrite read_members_unfold.
  destruct (skip_ws s) as [|q s1] eqn:Hskip0; [done|].
  apply skip_ws_peel in Hskip0 as (lead0 & -> & Hlead0 & Hq).
  destruct (q =? 34) eqn:E34; [|done]. apply N.eqb_eq in E34 as ->.
  destruct (read_units s1) as [[k r0]|] eqn:Hk; [|done].
  apply read_units_frame in Hk as (kbody & -> & Hkey).
  destruct (skip_ws r0) as [|c1 r2] eqn:Hskip1; [done|].
  apply skip_ws_peel in Hskip1 as (lead1 & -> & Hlead1 & Hc1).
  destruct (c1 =? 58) eqn:E58; [|done]. apply N.eqb_eq in E58 as ->.
  destruct (read_value f r2) as [[v r1]|] eqn:Hv; [|done].
  destruct (skip_ws r1) as [|c r3] eqn:Hskip; [done|].
  apply IHv in Hv as (lead & core & -> & Hlead & Hcore & Hre).
  apply skip_ws_peel in Hskip as (lead2 & -> & Hlead2 & Hc).
  set (front := lead0 ++ 34 :: kbody ++ 34 :: lead1 ++ 58 :: lead ++ core
                ++ lead2).
  assert (∀ y, skip_ws (front ++ y)
               = 34 :: kbody ++ 34 :: lead1 ++ 58 :: lead ++ core
                 ++ lead2 ++ y) as Hfront.
  { intros y. subst front. norm_app.
    by rewrite skip_ws_lead, skip_ws_solid. }
  assert (∀ f' y tail,
            (2 * length core ≤ f')%nat →
            skip_ws (lead2 ++ y) = tail → stops (lead2 ++ y) →
            read_members (S f') (front ++ y)
            = match tail with
              | [] => None
              | c3 :: r4 =>
                  if c3 =? 44 then
                    match read_members f' r4 with
                    | Some (ms, r5) => Some ((k, v) :: ms, r5)
                    | None => None
                    end
                  else if c3 =? 125 then Some ([(k, v)], r4)
                  else None
              end) as Hstep.
  { intros f' y tail Hf' Htail Hy. rewrite read_members_unfold, Hfront.
    change (34 =? 34) with true. cbv iota. rewrite Hkey.
    rewrite skip_ws_lead, skip_ws_solid by done.
    change (58 =? 58) with true. cbv iota.
    rewrite read_value_lead by done.
    rewrite Hre by done. by rewrite Htail. }
  destruct (c =? 44) eqn:E44.
  - apply N.eqb_eq in E44 as ->.
    destruct (read_members f r3) as [[ms' r']|] eqn:Hm; [|done].
    intros [= <- <-].
    apply IHm in Hm as (init & -> & _ & Hre').
    exists (front ++ 44 :: init). split_and!.
    + subst front. by norm_app.
    + rewrite <- app_assoc, Hfront. eauto.
    + intros [|f'] x Hf'; [lengths|].
      replace (((front ++ 44 :: init) ++ [125]) ++ x)
        with (front ++ 44 :: (init ++ [125]) ++ x) by (by norm_app).
      rewrite (Hstep f' _ (44 :: (init ++ [125]) ++ x)).
      * change (44 =? 44) with true. cbv iota.
        rewrite Hre'; [done|]. subst front. lengths.
      * subst front. lengths.
      * by rewrite skip_ws_lead, skip_ws_solid.
      * by apply stops_lead.
  - destruct (c =? 125) eqn:E125; [|done].
    apply N.eqb_eq in E125 as ->. intros [= <- <-].
    exists front. split_and!.
    + subst front. by norm_app.
    + rewrite Hfront. eauto.
    + intros [|f'] x Hf'; [lengths|].
      replace ((front ++ [125]) ++ x) with (front ++ 125 :: x)
        by (by norm_app).
      rewrite (Hstep f' _ (125 :: x)).
      * by change (125 =? 44) with false.
      * subst front. lengths.
      * by rewrite skip_ws_lead, skip_ws_solid.
      * by apply stops_lead.
Qed.

Lemma read_frame f : value_frame f ∧ elements_frame f ∧ members_frame f.
Proof.
  induction f as [|f (IHv & IHe & IHm)].
  - split_and!; intros ???; done.
  - split_and!.
    + by apply value_frame_step.
    + by apply elements_frame_step.
    + by apply members_frame_step.
Qed.

End JSONFacts.

(** ** The favorites as JSON text *)

Section stringify.
Import JSON JSONFacts.

Lemma stringify_idea_shape idea rest :
  stringify_idea idea ++ rest =
  123 :: JSON.quote name_key ++
  58 :: JSON.quote (name idea) ++
  44 :: JSON.quote slogan_key ++
  58 :: JSON.quote (slogan idea) ++ 125 :: rest.
Proof.
  unfold stringify_idea.
  norm_app. reflexivity.
Qed.

Lemma read_value_idea f idea rest :
  JSON.read_value (4 + f) (stringify_idea idea ++ rest)
  = Some (idea_value idea, rest).
Proof.
  rewrite stringify_idea_shape.
  change (4 + f)%nat with (S (S (S (S f)))).
  apply read_value_object.
  eapply read_members_comma; [apply read_value_quote |].
  apply read_members_brace, read_value_quote.
Qed.

Lemma stringify_idea_head idea :
  ∃ tail, stringify_idea idea = 123 :: tail.
Proof. eexists. reflexivity. Qed.

Lemma read_value_idea_ge n idea rest :
  (4 ≤ n)%nat →
  JSON.read_value n (stringify_idea idea ++ rest)
  = Some (idea_value idea, rest).
Proof.
  intros Hn. replace n with (4 + (n - 4))%nat by lia. apply read_value_idea.
Qed.

Lemma read_elements_ideas f l rest :
  l ≠ [] →
  JSON.read_elements (length l + 4 + f)
    (JSString.join [44] (stringify_idea <$> l) ++ 93 :: rest)
  = Some (idea_value <$> l, rest).
Proof.
  induction l as [|idea [|idea' l] IH]; intros Hne; [done| |].
  - cbn [fmap list_fmap JSString.join].
    change (length [idea] + 4 + f)%nat with (S (4 + f)).
    rewrite read_elements_unfold.
    rewrite read_value_idea_ge by lia. by read_step.
  - change (JSString.join [44] (stringify_idea <$> idea :: idea' :: l))
      with (stringify_idea idea ++ [44] ++
            JSString.join [44] (stringify_idea <$> idea' :: l)).
    change (length (idea :: idea' :: l) + 4 + f)%nat
      with (S (length (idea' :: l) + 4 + f)).
    rewrite read_elements_unfold. norm_app.
    rewrite read_value_idea_ge by lia. read_step.
    by rewrite IH.
Qed.

Lemma read_value_ideas f l rest :
  JSON.read_value (length l + 5 + f) (JSON_stringify l ++ rest)
  = Some (ideas_value l, rest).
Proof.
  unfold JSON_stringify, ideas_value.
  replace (length l + 5 + f)%nat with (S (length l + 4 + f)) by lia.
  rewrite read_value_unfold.
  destruct l as [|idea l].
  - by read_step.
  - norm_app. cbn [skip_ws]. decide_tests.
    destruct (stringify_idea_head idea) as [tail Ht].
    assert (∃ tail', JSString.join [44] (stringify_idea <$> idea :: l)
                     ++ 93 :: rest = 123 :: tail') as [tail' Ht'].
    { destruct l; cbn [fmap list_fmap JSString.join]; rewrite Ht;
        eexists; reflexivity. }
    rewrite Ht'. read_step. rewrite <- Ht'.
    by rewrite read_elements_ideas.
Qed.

Lemma length_join_ideas l :
  (length l ≤ length (JSString.join [44%N] (stringify_idea <$> l)))%nat.
Proof.
  induction l as [|idea [|idea' l] IH]; [done| |].
  - destruct (stringify_idea_head idea) as [tail Ht].
    cbn [fmap list_fmap JSString.join]. rewrite Ht. simpl. lia.
  - change (JSString.join [44] (stringify_idea <$> idea :: idea' :: l))
      with (stringify_idea idea ++ [44] ++
            JSString.join [44] (stringify_idea <$> idea' :: l)).
    rewrite !length_app. simpl in *. lia.
Qed.

(** [JSON.parse] reads back what [JSON.stringify] wrote. *)
Lemma parse_stringify l :
  JSON.parse (JSON_stringify l) = Some (ideas_value l).
Proof.
  unfold JSON.parse.
  pose proof (length_join_ideas l) as Hlen.
  assert (length (JSON_stringify l)
          = S (length (JSString.join [44] (stringify_idea <$> l)) + 1))
    as Hl.
  { unfold JSON_stringify. rewrite !length_app. simpl. lia. }
  replace (2 * length (JSON_stringify l) + 2)%nat
    with (length l + 5 + (2 * length (JSON_stringify l) - length l - 3))%nat
    by lia.
  rewrite <- (app_nil_r (JSON_stringify l)) at 2.
  by rewrite read_value_ideas.
Qed.

Lemma as_ideas_value l : as_ideas (ideas_value l) = Some l.
Proof.
  unfold as_ideas, ideas_value. apply mapM_Some.
  induction l as [|[n s] l IH]; constructor; [|done].
  unfold as_idea, idea_value. cbn [name slogan].
  by rewrite decide_True.
Qed.

Lemma ideas_value_inj l1 l2 : ideas_value l1 = ideas_value l2 → l1 = l2.
Proof.
  intros H. apply (f_equal as_ideas) in H.
  rewrite !as_ideas_value in H. congruence.
Qed.

Lemma JSON_stringify_truthy l : JSString.truthy (JSON_stringify l) = true.
Proof. reflexivity. Qed.

Lemma trim_fixed c s d :
  JSString.is_white c = false → JSString.is_white d = false →
  JSString.trim (c :: s ++ [d]) = c :: s ++ [d].
Proof.
  intros Hc Hd. unfold JSString.trim, JSString.trimEnd.
  cbn [JSString.trimStart]. rewrite Hc.
  rewrite app_comm_cons, reverse_app.
  change (reverse [d]) with [d]. cbn [app JSString.trimStart]. rewrite Hd.
  by rewrite reverse_cons, reverse_involutive.
Qed.

Lemma trim_JSON_stringify l :
  JSString.trim (JSON_stringify l) = JSON_stringify l.
Proof. unfold JSON_stringify. by apply trim_fixed. Qed.

End stringify.

(** ** Trimming *)

Section trimming.
Import JSON JSONFacts JSString.

Lemma trimStart_nil s :
  trimStart s = [] ↔ Forall (λ c, is_white c = true) s.
Proof.
  induction s as [|c s IH]; [by split|]. cbn [trimStart].
  destruct (is_white c) eqn:E.
  - rewrite IH. split; [by constructor|]. by inversion 1.
  - split; [done|]. inversion 1; congruence.
Qed.

Lemma trimStart_head s c r : trimStart s = c :: r → is_white c = false.
Proof.
  induction s as [|d s IH]; [done|]. cbn [trimStart].
  destruct (is_white d) eqn:E; [done|]. by intros [= -> _].
Qed.

(** A string trims to nothing exactly when it is empty or all whitespace. *)
Lemma trim_nil s : trim s = [] ↔ Forall (λ c, is_white c = true) s.
Proof.
  unfold trim, trimEnd. split.
  - intros H. apply (f_equal reverse) in H.
    rewrite reverse_involutive, reverse_nil in H.
    apply trimStart_nil in H. rewrite Forall_reverse in H.
    destruct (trimStart s) as [|c r] eqn:E; [by apply trimStart_nil|].
    apply trimStart_head in E. apply Forall_cons in H as [H _]. congruence.
  - intros H. apply trimStart_nil in H. by rewrite H.
Qed.

Lemma trimStart_white lead x :
  Forall (λ c, is_white c = true) lead → trimStart (lead ++ x) = trimStart x.
Proof. induction 1 as [|c lead Hc _ IH]; [done|]. cbn. by rewrite Hc. Qed.

Lemma trimStart_solid core x : solid core → trimStart (core ++ x) = core ++ x.
Proof.
  intros [H _]. destruct core as [|c t]; [done|]. cbn in *.
  destruct (is_white c); [done|reflexivity].
Qed.

Lemma trimEnd_solid core r :
  solid core → Forall (λ c, is_white c = true) r → trimEnd (core ++ r) = core.
Proof.
  intros [_ H] Hr. unfold trimEnd.
  rewrite reverse_app, trimStart_white by by apply Forall_reverse.
  destruct (last core) as [d|] eqn:E; [|done].
  apply last_Some in E as [init ->]. injection H as Hd.
  rewrite reverse_snoc. cbn [trimStart]. rewrite Hd.
  by rewrite reverse_cons, reverse_involutive.
Qed.

(** Trimming a text that holds one value between whitespace leaves the
    value's own text. *)
Lemma trim_core lead core r :
  blank lead → solid core → blank r → trim (lead ++ core ++ r) = core.
Proof.
  intros Hl Hc Hr. unfold trim.
  rewrite trimStart_white by by apply blank_white.
  rewrite trimStart_solid by done.
  apply trimEnd_solid; [done|by apply blank_white].
Qed.

Lemma blank_stops r : blank r → stops r.
Proof. intros [|c r' Hc _]; [done|]. by apply (ws_stops c). Qed.

(** The fuel [parse] gives itself is enough: a text that some fuel reads as
    one value followed by whitespace is parsed to that value. *)
Lemma parse_complete f text v r :
  read_value f text = Some (v, r) → blank r → parse text = Some v.
Proof.
  intros Hv Hr.
  destruct (read_frame f) as (Hframe & _ & _).
  apply Hframe in Hv as (lead & core & -> & Hl & Hc & Hre).
  unfold parse. rewrite read_value_lead by done.
  rewrite Hre; [|rewrite !length_app; lia|by apply blank_stops].
  destruct (skip_ws r) as [|c t] eqn:E; [done|].
  apply skip_ws_peel in E as (lead' & -> & _ & E).
  apply Forall_app in Hr as [_ Hr]. apply Forall_cons in Hr as [Hr _].
  congruence.
Qed.

(** [JSON.parse(text.trim())] accepts whatever [JSON.parse(text)] does. *)
Lemma parse_trim text v :
  parse text = Some v → parse (trim text) = Some v.
Proof.
  unfold parse at 1.
  destruct (read_value _ text) as [[v' r]|] eqn:Hv; [|done].
  destruct (skip_ws r) eqn:Hr; [|done]. intros [= ->].
  apply skip_ws_nil in Hr.
  destruct (read_frame (2 * length text + 2)) as (Hframe & _ & _).
  apply Hframe in Hv as (lead & core & -> & Hl & Hc & Hre).
  rewrite trim_core by done.
  apply (parse_complete (2 * length core) _ _ []); [|constructor].
  rewrite <- (app_nil_r core) at 2. by apply Hre.
Qed.

End trimming.

(** ** Toggling a favorite *)

Section toggle.
Implicit Types (idea f : StartupIdea) (l prev : list StartupIdea).

(** [prev.some(f => f.name === n)] holds exactly when [n] is among the
    names. *)
Lemma some_name_spec n l :
  existsb (λ f, bool_decide (name f = n)) l = true ↔ n ∈ name <$> l.
Proof.
  rewrite existsb_exists, list_elem_of_fmap. split.
  - intros (f & Hin & Hf). apply bool_decide_eq_true in Hf.
    exists f. split; [done|]. by apply list_elem_of_In.
  - intros (f & -> & Hin). exists f. split; [by apply list_elem_of_In|].
    by apply bool_decide_eq_true.
Qed.

Lemma isFavorite_spec l n : isFavorite l n = true ↔ n ∈ name <$> l.
Proof. apply some_name_spec. Qed.

Lemma isFavorite_false l n : isFavorite l n = false ↔ n ∉ name <$> l.
Proof. by rewrite <- isFavorite_spec, not_true_iff_false. Qed.

Lemma toggleFavorite_present idea prev :
  name idea ∈ name <$> prev →
  toggleFavorite idea prev = filter (λ f, name f ≠ name idea) prev.
Proof.
  intros H. apply some_name_spec in H. unfold toggleFavorite. by rewrite H.
Qed.

Lemma toggleFavorite_absent idea prev :
  name idea ∉ name <$> prev → toggleFavorite idea prev = prev ++ [idea].
Proof.
  intros H. unfold toggleFavorite.
  destruct (existsb _ prev) eqn:E; [|done].
  by apply some_name_spec in E.
Qed.

Lemma filter_other_names_id n l :
  n ∉ name <$> l → filter (λ f, name f ≠ n) l = l.
Proof.
  induction l as [|f l IH]; [done|]. intros Hn.
  rewrite fmap_cons, not_elem_of_cons in Hn. destruct Hn as [Hf Hl].
  rewrite filter_cons_True by done. by rewrite IH.
Qed.

Lemma filter_other_names_not_elem n l :
  n ∉ name <$> filter (λ f, name f ≠ n) l.
Proof.
  rewrite list_elem_of_fmap. intros (f & -> & Hf).
  apply list_elem_of_filter in Hf as [Hf _]. done.
Qed.



(** In a list with unique names, removing the entries of one name removes
    one entry. *)
Lemma unique_names_filter_split n l :
  unique_names l → n ∈ name <$> l →
  ∃ l1 f l2, l = l1 ++ f :: l2 ∧ name f = n
    ∧ n ∉ name <$> l1 ∧ n ∉ name <$> l2
    ∧ filter (λ g, name g ≠ n) l = l1 ++ l2.
Proof.
  intros Hu Hn. apply list_elem_of_fmap in Hn as (f & -> & Hf).
  apply list_elem_of_split in Hf as (l1 & l2 & ->).
  unfold unique_names in Hu. rewrite fmap_app, fmap_cons in Hu.
  apply NoDup_app in Hu as (_ & H1 & H2).
  apply NoDup_cons in H2 as [H2 _].
  assert (name f ∉ name <$> l1) as Hl1.
  { intros Hin. apply (H1 _ Hin). left. }
  exists l1, f, l2. split_and!; [done..|].
  rewrite filter_app, filter_cons_False by (intros H; by apply H).
  by rewrite !filter_other_names_id.
Qed.

(** C2, as amended.  Toggling the same idea twice gives the list back
    exactly when no entry had the idea's name, or when the list ended with
    the idea itself and no other entry had its name.  (In every other case
    the first toggle removes the namesakes and the second appends the idea
    at the end.) *)
Theorem toggle_twice_restores_iff (a : StartupIdea) (l : list StartupIdea) :
  toggleFavorite a (toggleFavorite a l) = l
  ↔ isFavorite l (name a) = false
    ∨ ∃ l', l = l' ++ [a] ∧ isFavorite l' (name a) = false.
Proof.
  assert (name a ∈ name <$> l ++ [a]) as Hlast
    by (intros; rewrite fmap_app; apply elem_of_app; right; left).
  assert (∀ l', name a ∉ name <$> l' →
            filter (λ f, name f ≠ name a) (l' ++ [a]) = l') as Hfilter.
  { intros l' Hout. rewrite filter_app, filter_other_names_id by done.
    rewrite filter_cons_False by (intros H; by apply H). apply app_nil_r. }
  split.
  - intros H. destruct (decide (name a ∈ name <$> l)) as [Hin|Hout].
    + right. rewrite (toggleFavorite_present a l) in H by done.
      rewrite toggleFavorite_absent in H
        by apply filter_other_names_not_elem.
      exists (filter (λ f, name f ≠ name a) l). split; [done|].
      apply isFavorite_false, filter_other_names_not_elem.
    + left. by apply isFavorite_false.
  - intros [Hout|(l' & -> & Hout)]; apply isFavorite_false in Hout.
    + rewrite (toggleFavorite_absent a l) by done.
      rewrite toggleFavorite_present by done. by apply Hfilter.
    + rewrite (toggleFavorite_present a (l' ++ [a]))
        by (rewrite fmap_app; apply elem_of_app; right; left).
      rewrite Hfilter by done. by apply toggleFavorite_absent.
Qed.

(** C2 as stated fails: from [[vitalis; nimbus]], toggling [vitalis] twice
    gives [[nimbus; vitalis]], the same entries in another order. *)
Lemma toggle_twice_reorders :
  toggleFavorite vitalis (toggleFavorite vitalis [vitalis; nimbus])
  = [nimbus; vitalis]
  ∧ toggleFavorite vitalis (toggleFavorite vitalis [vitalis; nimbus])
    ≠ [vitalis; nimbus].
Proof. split; [reflexivity | discriminate]. Qed.

(** C10. For every list in which the idea's name occurs, also one with
    several entries of that name, [toggleFavorite] returns the entries
    whose name differs: a sublist of the original in the original order,
    holding every entry of another name and no entry of that name. *)
Theorem toggle_removes_every_same_name (idea : StartupIdea)
  (prev : list StartupIdea) :
  isFavorite prev (name idea) = true →
  toggleFavorite idea prev = filter (λ f, name f ≠ name idea) prev
  ∧ toggleFavorite idea prev `sublist_of` prev
  ∧ (∀ f, f ∈ toggleFavorite idea prev ↔ f ∈ prev ∧ name f ≠ name idea)
  ∧ isFavorite (toggleFavorite idea prev) (name idea) = false.
Proof.
  intros H. apply isFavorite_spec in H.
  rewrite toggleFavorite_present by done. split_and!.
  - done.
  - apply sublist_filter.
  - intros f. rewrite list_elem_of_filter. tauto.
  - apply isFavorite_false, filter_other_names_not_elem.
Qed.

Lemma toggle_removes_every_same_name_witness :
  isFavorite [vitalis; nimbus; vitalis'] (name vitalis) = true
  ∧ toggleFavorite vitalis [vitalis; nimbus; vitalis'] = [nimbus].
Proof.
  split; [reflexivity|].
  destruct (toggle_removes_every_same_name vitalis
              [vitalis; nimbus; vitalis'] eq_refl) as [-> _].
  reflexivity.
Defined.

Lemma toggleFavorite_click_run idea w :
  toggleFavorite_click idea w =
  (Returned (),
   mkWorld
     (let st := state w in
      mkAppState (industry st) (keywords st) (selectedModifiers st)
        (ideas st) (toggleFavorite idea (favorites st)) (loading st)
        (error st) (copiedIndex st) (view st))
     (persist (toggleFavorite idea (favorites (state w))) (localStorage w))
     (console w) (outbound w)).
Proof. reflexivity. Qed.

(** C3. On favorites with unique names, the star click returns without
    throwing; if an entry has the idea's name, that entry is the only one
    and it is the one removed, the entries before and after it staying in
    place; otherwise the idea is appended at the end; and the storage key
    then holds the text of the whole new list, which parses back to it. *)
Theorem toggle_contract (idea : StartupIdea) (w : World) :
  unique_names (favorites (state w)) →
  let prev := favorites (state w) in
  let w' := snd (toggleFavorite_click idea w) in
  fst (toggleFavorite_click idea w) = Returned ()
  ∧ (isFavorite prev (name idea) = true →
     ∃ l1 f l2, prev = l1 ++ f :: l2 ∧ name f = name idea
       ∧ isFavorite (l1 ++ l2) (name idea) = false
       ∧ favorites (state w') = l1 ++ l2)
  ∧ (isFavorite prev (name idea) = false →
     favorites (state w') = prev ++ [idea])
  ∧ localStorage w' !! STORAGE_KEY
    = Some (JSON_stringify (favorites (state w')))
  ∧ JSON.parse (JSON_stringify (favorites (state w')))
    = Some (ideas_value (favorites (state w'))).
Proof.
  intros Hu prev w'. subst prev w'. rewrite toggleFavorite_click_run.
  cbn [fst snd state favorites localStorage]. split_and!.
  - done.
  - intros Hin. apply isFavorite_spec in Hin.
    destruct (unique_names_filter_split _ _ Hu Hin)
      as (l1 & f & l2 & Hl & Hf & H1 & H2 & Hfilter).
    exists l1, f, l2. split_and!; [done..| |].
    + apply isFavorite_false. rewrite fmap_app, elem_of_app. tauto.
    + by rewrite toggleFavorite_present.
  - intros Hout. by apply toggleFavorite_absent, isFavorite_false.
  - unfold persist. apply lookup_insert_eq.
  - apply parse_stringify.
Qed.

Lemma toggle_contract_witness :
  unique_names (favorites (state two_favorites))
  ∧ localStorage (snd (toggleFavorite_click vitalis two_favorites))
      !! STORAGE_KEY
    = Some (JSON_stringify
              (favorites (state (snd (toggleFavorite_click vitalis
                                        two_favorites))))).
Proof.
  assert (unique_names (favorites (state two_favorites))) as Hu.
  { unfold unique_names. apply (bool_decide_unpack _). vm_compute. exact I. }
  split; [exact Hu|].
  exact (proj1 (proj2 (proj2 (proj2
           (toggle_contract vitalis two_favorites Hu))))).
Defined.

End toggle.

(** ** Hydration and mounting *)

Section hydrate.
Implicit Types (w : World) (l : list StartupIdea).

Lemma parse_nil : JSON.parse [] = None.
Proof. reflexivity. Qed.

Lemma parse_Some_truthy text v :
  JSON.parse text = Some v → JSString.truthy text = true.
Proof. by destruct text. Qed.

Lemma hydrate_missing w :
  localStorage w !! STORAGE_KEY = None → hydrate w = (Returned None, w).
Proof. intros H. unfold hydrate. by rewrite H. Qed.

Lemma hydrate_empty w :
  localStorage w !! STORAGE_KEY = Some [] → hydrate w = (Returned None, w).
Proof. intros H. unfold hydrate. by rewrite H. Qed.

Lemma hydrate_parsed w text v :
  localStorage w !! STORAGE_KEY = Some text → JSON.parse text = Some v →
  hydrate w = (Returned (Some v), w).
Proof.
  intros H Hv. unfold hydrate. rewrite H, (parse_Some_truthy _ _ Hv).
  unfold try_catch, JSON_parse. rewrite Hv. reflexivity.
Qed.

Lemma hydrate_unparsable w text :
  localStorage w !! STORAGE_KEY = Some text → JSString.truthy text = true →
  JSON.parse text = None →
  hydrate w = (Returned None,
               mkWorld (state w) (localStorage w)
                       (console w ++ [PARSE_DIAGNOSTIC]) (outbound w)).
Proof.
  intros H Ht Hv. unfold hydrate. rewrite H, Ht.
  unfold try_catch, JSON_parse. rewrite Hv. reflexivity.
Qed.

Lemma persist_lookup l storage :
  persist l storage !! STORAGE_KEY = Some (JSON_stringify l).
Proof. apply lookup_insert_eq. Qed.

Lemma persist_persist l l' storage :
  persist l (persist l' storage) = persist l storage.
Proof. apply insert_insert_eq. Qed.

Lemma persist_stored l storage :
  storage !! STORAGE_KEY = Some (JSON_stringify l) → persist l storage = storage.
Proof. apply insert_id. Qed.

Lemma mount_missing storage :
  storage !! STORAGE_KEY = None →
  mount storage = Ready (mkWorld initial_state (persist [] storage) [] []).
Proof.
  intros H. unfold mount. by rewrite hydrate_missing.
Qed.

Lemma mount_unparsable storage text :
  storage !! STORAGE_KEY = Some text → JSON.parse text = None →
  mount storage =
  Ready (mkWorld initial_state (persist [] storage)
           (if JSString.truthy text then [PARSE_DIAGNOSTIC] else []) []).
Proof.
  intros H Hv. unfold mount. destruct text as [|c text].
  - by rewrite hydrate_empty.
  - by rewrite (hydrate_unparsable _ (c :: text)).
Qed.

Lemma setFavorites_run updater w :
  setFavorites updater w =
  (Returned (),
   mkWorld
     (let st := state w in
      mkAppState (industry st) (keywords st) (selectedModifiers st)
        (ideas st) (updater (favorites st)) (loading st)
        (error st) (copiedIndex st) (view st))
     (persist (updater (favorites (state w))) (localStorage w))
     (console w) (outbound w)).
Proof. reflexivity. Qed.

Lemma mount_stored storage l :
  storage !! STORAGE_KEY = Some (JSON_stringify l) →
  mount storage =
  Ready (mkWorld (mkAppState [] [] [] (JSON.Array []) l false None None
                             Generate)
                 storage [] []).
Proof.
  intros H. unfold mount.
  rewrite (hydrate_parsed (mkWorld initial_state storage [] []) _ _ H
             (parse_stringify l)).
  rewrite as_ideas_value, setFavorites_run.
  cbn -[persist]. by rewrite persist_persist, persist_stored.
Qed.

End hydrate.

(** ** Generation *)

Ltac run_handler :=
  unfold try_catch_finally, try_catch, generateContent, setLoading,
    setError, setCopiedIndex, setView, setIdeas, console_error, update,
    throw, JSON_parse, mbind, mret, Handler_bind, Handler_ret;
  cbn -[request_of JSString.trim JSString.lit JSON.parse GENERATION_ERROR].

Section generate.
Implicit Types (w : World) (ai : Service) (l : list StartupIdea).

Lemma generateIdeas_blank ai w :
  JSString.trim (industry (state w)) = [] →
  generateIdeas ai w = (Returned (), w).
Proof. intros H. unfold generateIdeas. by rewrite H. Qed.

Lemma generateIdeas_rejected ai w e :
  JSString.trim (industry (state w)) ≠ [] →
  ai (request_of (state w)) = Rejected e →
  generateIdeas ai w = (Returned (), generation_failed e w).
Proof.
  intros H Hai. unfold generateIdeas.
  destruct (JSString.trim (industry (state w))); [done|].
  run_handler. rewrite Hai. reflexivity.
Qed.

Lemma generateIdeas_fulfilled ai w response :
  JSString.trim (industry (state w)) ≠ [] →
  ai (request_of (state w)) = Fulfilled response →
  generateIdeas ai w =
  (Returned (),
   match JSString.trim <$> text response with
   | Some payload =>
       if JSString.truthy payload then
         match JSON.parse payload with
         | Some v => generation_succeeded v w
         | None => generation_failed SyntaxError w
         end
       else generation_failed NO_PAYLOAD w
   | None => generation_failed NO_PAYLOAD w
   end).
Proof.
  intros H Hai. unfold generateIdeas.
  destruct (JSString.trim (industry (state w))); [done|].
  run_handler. rewrite Hai.
  destruct (text response) as [t|]; [|reflexivity].
  run_handler.
  destruct (JSString.trim t) as [|c payload] eqn:Ht; [reflexivity|].
  run_handler.
  destruct (JSON.parse (c :: payload)); reflexivity.
Qed.


(** A payload that parses is parsed, trimmed or not. *)
Lemma generateIdeas_parsed ai w response payload v :
  JSString.trim (industry (state w)) ≠ [] →
  ai (request_of (state w)) = Fulfilled response →
  text response = Some payload →
  JSON.parse (JSString.trim payload) = Some v →
  generateIdeas ai w = (Returned (), generation_succeeded v w).
Proof.
  intros H Hai Ht Hv.
  rewrite (generateIdeas_fulfilled _ _ _ H Hai), Ht.
  cbn [fmap option_fmap option_map].
  by rewrite (parse_Some_truthy _ _ Hv), Hv.
Qed.

(** C6. For every industry string that is empty or made of whitespace only,
    the string trims to nothing and [generateIdeas] is a no-op: it returns
    without throwing, no request goes out, and the world (every state slot,
    the storage, the console, the requests sent) is as it was, whatever the
    keywords, the modifiers and the service. *)
Theorem generate_blank_industry_noop ai w :
  Forall (λ c, JSString.is_white c = true) (industry (state w)) →
  JSString.trim (industry (state w)) = []
  ∧ generateIdeas ai w = (Returned (), w)
  ∧ outbound (snd (generateIdeas ai w)) = outbound w.
Proof.
  intros H. apply trim_nil in H. split; [done|].
  by rewrite generateIdeas_blank.
Qed.

Lemma generate_blank_industry_noop_witness :
  Forall (λ c, JSString.is_white c = true) (industry (state blank_form))
  ∧ generateIdeas unreachable blank_form = (Returned (), blank_form).
Proof.
  assert (Forall (λ c, JSString.is_white c = true)
                 (industry (state blank_form))) as H
    by (repeat constructor).
  split; [exact H|].
  exact (proj1 (proj2 (generate_blank_industry_noop unreachable blank_form
                         H))).
Defined.

(** C7. For every industry that is not empty after trimming,
    [generateIdeas] sends exactly one request, the one built from the form;
    and when the service answers with a text that parses, the handler
    returns, sets no error, and [ideas] is replaced by the parsed value as a
    whole: for the text of a sequence of ideas, by that sequence in that
    order. *)
Theorem generate_one_call_replaces_ideas ai w :
  JSString.trim (industry (state w)) ≠ [] →
  let w' := snd (generateIdeas ai w) in
  outbound w' = outbound w ++ [request_of (state w)]
  ∧ (∀ response payload v,
       ai (request_of (state w)) = Fulfilled response →
       text response = Some payload →
       JSON.parse payload = Some v →
       fst (generateIdeas ai w) = Returned ()
       ∧ ideas (state w') = v ∧ error (state w') = None
       ∧ loading (state w') = false)
  ∧ (∀ response l,
       ai (request_of (state w)) = Fulfilled response →
       text response = Some (JSON_stringify l) →
       ideas (state w') = ideas_value l
       ∧ as_ideas (ideas (state w')) = Some l).
Proof.
  intros H w'. subst w'. split_and!.
  - destruct (ai (request_of (state w))) as [response|e] eqn:Hai.
    + rewrite (generateIdeas_fulfilled _ _ _ H Hai).
      destruct (JSString.trim <$> text response) as [payload|]; [|done].
      destruct (JSString.truthy payload); [|done].
      by destruct (JSON.parse payload).
    + by rewrite (generateIdeas_rejected _ _ _ H Hai).
  - intros response payload v Hai Ht Hv. apply parse_trim in Hv.
    by rewrite (generateIdeas_parsed _ _ _ _ _ H Hai Ht Hv).
  - intros response l Hai Ht.
    rewrite (generateIdeas_parsed _ _ _ _ (ideas_value l) H Hai Ht).
    + cbn. split; [done|apply as_ideas_value].
    + apply parse_trim, parse_stringify.
Qed.

Lemma generate_one_call_replaces_ideas_witness :
  JSString.trim (industry (state healthcare)) ≠ []
  ∧ outbound (snd (generateIdeas (answering (JSON_stringify [vitalis]))
                     healthcare))
    = outbound healthcare ++ [request_of (state healthcare)].
Proof.
  assert (JSString.trim (industry (state healthcare)) ≠ []) as H
    by (vm_compute; discriminate).
  split; [exact H|].
  exact (proj1 (generate_one_call_replaces_ideas
                  (answering (JSON_stringify [vitalis])) healthcare H)).
Defined.

(** C8, as amended.  Every failure of a generation (the call is rejected,
    the response has no text, the text is empty once trimmed, or the
    trimmed text does not parse as JSON) is caught: the handler returns,
    [loading] is reset, the one message [GENERATION_ERROR] is set whatever
    the failure was, the ideas stay, and the exception goes to the console.
    A text that parses is no failure, whatever the shape of the parsed
    value: it becomes the ideas and no error is set. *)
Theorem generate_failures_one_message ai w :
  JSString.trim (industry (state w)) ≠ [] →
  let w' := snd (generateIdeas ai w) in
  fst (generateIdeas ai w) = Returned ()
  ∧ loading (state w') = false
  ∧ ((∃ e, ai (request_of (state w)) = Rejected e)
     ∨ (∃ response, ai (request_of (state w)) = Fulfilled response
          ∧ (text response = None
             ∨ ∃ payload, text response = Some payload
                 ∧ (JSString.trim payload = []
                    ∨ JSON.parse (JSString.trim payload) = None)))
     → error (state w') = Some GENERATION_ERROR
       ∧ ideas (state w') = ideas (state w)
       ∧ ∃ e, console w' = console w ++ [mkDiagnostic None e])
  ∧ (∀ response payload v,
       ai (request_of (state w)) = Fulfilled response →
       text response = Some payload →
       JSON.parse (JSString.trim payload) = Some v →
       error (state w') = None ∧ ideas (state w') = v
       ∧ console w' = console w).
Proof.
  intros H w'. subst w'.
  destruct (ai (request_of (state w))) as [response|e] eqn:Hai.
  - rewrite (generateIdeas_fulfilled _ _ _ H Hai).
    cbn [fst snd]. split_and!.
    + done.
    + destruct (JSString.trim <$> text response) as [payload|]; [|done].
      destruct (JSString.truthy payload); [|done].
      by destruct (JSON.parse payload).
    + intros [[e [=]]|(? & [= <-] & Hno)].
      destruct Hno as [->|(payload & -> & Hno)];
        [cbn; eauto|].
      cbn [fmap option_fmap option_map].
      destruct Hno as [->| ->]; [cbn; eauto|].
      destruct (JSString.truthy _); cbn; eauto.
    + intros ? payload v [= <-] -> Hv. cbn [fmap option_fmap option_map].
      by rewrite (parse_Some_truthy _ _ Hv), Hv.
  - rewrite (generateIdeas_rejected _ _ _ H Hai).
    cbn [fst snd]. split_and!; [done..| |].
    + intros _. cbn. eauto.
    + intros ? ? ? [=].
Qed.

Lemma generate_failures_one_message_witness :
  JSString.trim (industry (state healthcare)) ≠ []
  ∧ fst (generateIdeas unreachable healthcare) = Returned ().
Proof.
  assert (JSString.trim (industry (state healthcare)) ≠ []) as H
    by (vm_compute; discriminate).
  split; [exact H|].
  exact (proj1 (generate_failures_one_message unreachable healthcare H)).
Defined.

(** C8 as stated fails: the service answers [[{"name":"Vitalis"}]], which
    is not of the shape the response schema asks for and is no sequence of
    ideas; yet no error is set, and the parsed value becomes the ideas. *)
Lemma wrong_shape_payload_sets_no_error :
  JSON.parse sloganless_payload
  = Some (JSON.Array
            [JSON.Object [(name_key, JSON.String (JSString.lit "Vitalis"))]])
  ∧ conforms responseSchema
      (JSON.Array
         [JSON.Object [(name_key, JSON.String (JSString.lit "Vitalis"))]])
    = false
  ∧ as_ideas
      (JSON.Array
         [JSON.Object [(name_key, JSON.String (JSString.lit "Vitalis"))]])
    = None
  ∧ error (state (snd (generateIdeas (answering sloganless_payload)
                         healthcare))) = None
  ∧ ideas (state (snd (generateIdeas (answering sloganless_payload)
                         healthcare)))
    = JSON.Array
        [JSON.Object [(name_key, JSON.String (JSString.lit "Vitalis"))]].
Proof. split_and!; vm_compute; reflexivity. Qed.

(** Whitespace that JSON does not know is trimmed before parsing: a text
    behind a no-break space does not parse as it is, and is accepted. *)
Lemma padded_payload_is_parsed :
  JSON.parse (160 :: JSON_stringify [vitalis]) = None
  ∧ snd (generateIdeas (answering (160 :: JSON_stringify [vitalis]))
           healthcare)
    = generation_succeeded (ideas_value [vitalis]) healthcare.
Proof. split; vm_compute; reflexivity. Qed.

(** C9, as amended.  Whatever the form, the service and the outcome,
    [generateIdeas] returns and leaves the favorites as they were, and with
    them the storage and the fields of the form.  With a blank industry
    nothing at all changes.  Otherwise the one request goes out, and beyond
    the slots of the view there is one more effect: a generation that fails
    writes the exception to the console, one line for each failure; a
    generation that succeeds writes none. *)
Theorem generate_leaves_favorites ai w :
  let w' := snd (generateIdeas ai w) in
  fst (generateIdeas ai w) = Returned ()
  ∧ favorites (state w') = favorites (state w)
  ∧ localStorage w' = localStorage w
  ∧ industry (state w') = industry (state w)
  ∧ keywords (state w') = keywords (state w)
  ∧ selectedModifiers (state w') = selectedModifiers (state w)
  ∧ ((JSString.trim (industry (state w)) = []
      ∧ w' = w)
     ∨ (JSString.trim (industry (state w)) ≠ []
        ∧ outbound w' = outbound w ++ [request_of (state w)]
        ∧ ((error (state w') = None ∧ console w' = console w)
           ∨ (error (state w') = Some GENERATION_ERROR
              ∧ ideas (state w') = ideas (state w)
              ∧ ∃ e, console w' = console w ++ [mkDiagnostic None e])))).
Proof.
  intros w'. subst w'.
  destruct (decide (JSString.trim (industry (state w)) = [])) as [Hb|Hb].
  { rewrite (generateIdeas_blank _ _ Hb). cbn. tauto. }
  assert (∃ w', generateIdeas ai w = (Returned (), w')
                ∧ ((∃ e, w' = generation_failed e w)
                   ∨ ∃ v, w' = generation_succeeded v w))
    as (w' & -> & [[e ->]|[v ->]]).
  { destruct (ai (request_of (state w))) as [response|e] eqn:Hai.
    - rewrite (generateIdeas_fulfilled _ _ _ Hb Hai).
      destruct (JSString.trim <$> text response) as [payload|];
        [|by eauto 6].
      destruct (JSString.truthy payload); [|by eauto 6].
      destruct (JSON.parse payload); by eauto 6.
    - rewrite (generateIdeas_rejected _ _ _ Hb Hai). by eauto 6. }
  - cbn. split_and!; try done. right. split; [done|]. split; [done|].
    right. eauto.
  - cbn. split_and!; try done. right. split; [done|]. split; [done|].
    by left.
Qed.

(** C9 as stated fails on the side effects: a generation whose call is
    rejected sends the request and also writes to the console, which held
    nothing before; the favorites are as they were. *)
Lemma failed_generation_writes_console :
  console healthcare = []
  ∧ console (snd (generateIdeas unreachable healthcare))
    = [mkDiagnostic None (ServiceFailure (JSString.lit "503"))]
  ∧ outbound (snd (generateIdeas unreachable healthcare))
    = [request_of (state healthcare)]
  ∧ favorites (state (snd (generateIdeas unreachable healthcare)))
    = favorites (state healthcare).
Proof. split_and!; vm_compute; reflexivity. Qed.

End generate.

(** ** Stored favorites *)

Section stored.
Implicit Types (w : World) (l : list StartupIdea).


(** C4. For every list of favorites, once it has been set and persisted,
    the storage key holds its text; hydrating from there throws nothing,
    logs nothing and yields the value of exactly that list, in order; and a
    page mounted on that storage has that list as its favorites and leaves
    the storage as it was. *)
Theorem persist_hydrate_roundtrip l w :
  let w1 := snd (setFavorites (λ _, l) w) in
  localStorage w1 !! STORAGE_KEY = Some (JSON_stringify l)
  ∧ hydrate w1 = (Returned (Some (ideas_value l)), w1)
  ∧ as_ideas (ideas_value l) = Some l
  ∧ ∃ w2, mount (localStorage w1) = Ready w2
          ∧ favorites (state w2) = l
          ∧ localStorage w2 = localStorage w1.
Proof.
  intros w1. subst w1. rewrite setFavorites_run. cbn [snd].
  split_and!.
  - apply persist_lookup.
  - apply hydrate_parsed with (text := JSON_stringify l);
      [apply persist_lookup | apply parse_stringify].
  - apply as_ideas_value.
  - eexists. cbn [localStorage].
    split; [apply mount_stored, persist_lookup | done].
Qed.

(** C5, as amended.  When the storage key is missing, or holds a text that
    does not parse, hydration returns without throwing and without calling
    [setFavorites], state and storage are untouched, and the page mounts
    with no favorites.  The diagnostic is logged when the text is not
    empty; an empty stored string is skipped like a missing key, with no
    diagnostic. *)
Theorem hydrate_unreadable_is_empty w :
  localStorage w !! STORAGE_KEY = None
  ∨ (∃ text, localStorage w !! STORAGE_KEY = Some text
             ∧ JSON.parse text = None) →
  fst (hydrate w) = Returned None
  ∧ state (snd (hydrate w)) = state w
  ∧ localStorage (snd (hydrate w)) = localStorage w
  ∧ console (snd (hydrate w))
    = console w
      ++ (if JSString.truthy_opt (localStorage w !! STORAGE_KEY)
          then [PARSE_DIAGNOSTIC] else [])
  ∧ ∃ w', mount (localStorage w) = Ready w' ∧ favorites (state w') = [].
Proof.
  intros [Hnone|(text & Htext & Hv)].
  - rewrite hydrate_missing, Hnone by done. cbn.
    rewrite app_nil_r, mount_missing by done. eauto 10.
  - rewrite Htext, (mount_unparsable _ _ Htext Hv). cbn [JSString.truthy_opt].
    destruct text as [|c text].
    + rewrite hydrate_empty by done. cbn. rewrite app_nil_r. eauto 10.
    + rewrite (hydrate_unparsable _ _ Htext) by done. cbn. eauto 10.
Qed.

Lemma hydrate_unreadable_is_empty_witness :
  (({[STORAGE_KEY := corrupted]} : gmap jsstring jsstring) !! STORAGE_KEY
   = None
   ∨ ∃ text, ({[STORAGE_KEY := corrupted]} : gmap jsstring jsstring)
             !! STORAGE_KEY = Some text ∧ JSON.parse text = None)
  ∧ fst (hydrate (mkWorld initial_state {[STORAGE_KEY := corrupted]} [] []))
    = Returned None.
Proof.
  assert (({[STORAGE_KEY := corrupted]} : gmap jsstring jsstring)
          !! STORAGE_KEY = None
          ∨ ∃ text, ({[STORAGE_KEY := corrupted]} : gmap jsstring jsstring)
                    !! STORAGE_KEY = Some text ∧ JSON.parse text = None)
    as H.
  { right. exists corrupted. split; [apply lookup_singleton_eq|reflexivity]. }
  split; [exact H|].
  exact (proj1 (hydrate_unreadable_is_empty
                  (mkWorld initial_state {[STORAGE_KEY := corrupted]} [] [])
                  H)).
Defined.

(** C5 as stated fails on the diagnostic: the empty string does not parse,
    and hydrating from it logs nothing. *)
Lemma hydrate_empty_text_logs_nothing :
  JSON.parse [] = None
  ∧ hydrate (mkWorld initial_state {[STORAGE_KEY := []]} [] [])
    = (Returned None, mkWorld initial_state {[STORAGE_KEY := []]} [] []).
Proof.
  split; [reflexivity|]. apply hydrate_empty, lookup_singleton_eq.
Qed.

End stored.


(** * Further properties *)

(** ** Favorites *)

Section more_favorites.
Implicit Types (idea f : StartupIdea) (l prev : list StartupIdea).

Lemma filter_other_names_idem n l :
  filter (λ f, name f ≠ n) (filter (λ f, name f ≠ n) l)
  = filter (λ f, name f ≠ n) l.
Proof. apply filter_other_names_id, filter_other_names_not_elem. Qed.

Lemma filter_other_names_snoc idea l :
  filter (λ f, name f ≠ name idea) (l ++ [idea])
  = filter (λ f, name f ≠ name idea) l.
Proof.
  rewrite filter_app, filter_cons_False by (intros H; by apply H).
  apply app_nil_r.
Qed.

Lemma isFavorite_snoc l idea : isFavorite (l ++ [idea]) (name idea) = true.
Proof.
  apply isFavorite_spec. rewrite fmap_app. apply elem_of_app. right. left.
Qed.

(** X1. A star click flips the star of the clicked name: on every list,
    [isFavorite] of the idea's name after [toggleFavorite] is the negation
    of what it was before. *)
Theorem star_flips idea l :
  isFavorite (toggleFavorite idea l) (name idea)
  = negb (isFavorite l (name idea)).
Proof.
  destruct (isFavorite l (name idea)) eqn:E; cbn [negb].
  - apply isFavorite_spec in E. rewrite toggleFavorite_present by done.
    apply isFavorite_false, filter_other_names_not_elem.
  - apply isFavorite_false in E. rewrite toggleFavorite_absent by done.
    apply isFavorite_snoc.
Qed.

(** X2. A star click leaves the entries of every other name alone: they are
    the same entries in the same order before and after, so [isFavorite]
    of another name does not change. *)
Theorem toggle_keeps_other_names idea l :
  filter (λ f, name f ≠ name idea) (toggleFavorite idea l)
  = filter (λ f, name f ≠ name idea) l
  ∧ ∀ n, n ≠ name idea →
      isFavorite (toggleFavorite idea l) n = isFavorite l n
      ∧ filter (λ f, name f = n) (toggleFavorite idea l)
        = filter (λ f, name f = n) l.
Proof.
  assert (filter (λ f, name f ≠ name idea) (toggleFavorite idea l)
          = filter (λ f, name f ≠ name idea) l) as Hother.
  { destruct (decide (name idea ∈ name <$> l)) as [Hin|Hout].
    - rewrite toggleFavorite_present by done. apply filter_other_names_idem.
    - rewrite toggleFavorite_absent by done. apply filter_other_names_snoc. }
  split; [done|]. intros n Hn.
  assert (∀ k : list StartupIdea,
            filter (λ f, name f = n) k
            = filter (λ f, name f = n)
                (filter (λ f, name f ≠ name idea) k)) as Hsame.
  { intros k. rewrite list_filter_filter. apply list_filter_iff.
    intros f. split; [intros ->; done|tauto]. }
  assert (filter (λ f, name f = n) (toggleFavorite idea l)
          = filter (λ f, name f = n) l) as Hn'.
  { by rewrite (Hsame (toggleFavorite idea l)), Hother, <- Hsame. }
  split; [|done].
  assert (∀ k : list StartupIdea,
            isFavorite k n = true ↔ filter (λ f, name f = n) k ≠ [])
    as Hfav.
  { intros k. rewrite isFavorite_spec, list_elem_of_fmap. split.
    - intros (f & -> & Hf) Hnil.
      by eapply (filter_nil_not_elem_of _ _ f) in Hnil.
    - intros Hne. destruct (filter _ k) as [|f t] eqn:E; [done|].
      assert (f ∈ filter (λ f, name f = n) k) as Hf by (rewrite E; left).
      apply list_elem_of_filter in Hf as [<- Hf]. eauto. }
  apply eq_true_iff_eq. by rewrite !Hfav, Hn'.
Qed.

(** X3. Three star clicks on the same idea give what one click gives, on
    every list. *)
Theorem toggle_thrice idea l :
  toggleFavorite idea (toggleFavorite idea (toggleFavorite idea l))
  = toggleFavorite idea l.
Proof.
  destruct (decide (name idea ∈ name <$> l)) as [Hin|Hout].
  - rewrite (toggleFavorite_present idea l) by done.
    rewrite (toggleFavorite_absent idea (filter _ l))
      by apply filter_other_names_not_elem.
    rewrite toggleFavorite_present by (apply isFavorite_spec, isFavorite_snoc).
    rewrite filter_other_names_snoc. apply filter_other_names_idem.
  - rewrite (toggleFavorite_absent idea l) by done.
    rewrite (toggleFavorite_present idea (l ++ [idea]))
      by (apply isFavorite_spec, isFavorite_snoc).
    rewrite filter_other_names_snoc, filter_other_names_id by done.
    by apply toggleFavorite_absent.
Qed.

(** X4. On favorites with unique names, the number of favorites (the count
    in the tab) goes down by one when the name was a favorite and up by one
    when it was not. *)
Theorem toggle_changes_length_by_one idea l :
  unique_names l →
  length (toggleFavorite idea l)
  = if isFavorite l (name idea) then (length l - 1)%nat
    else (length l + 1)%nat.
Proof.
  intros Hu. destruct (isFavorite l (name idea)) eqn:E.
  - apply isFavorite_spec in E.
    destruct (unique_names_filter_split _ _ Hu E)
      as (l1 & f & l2 & -> & _ & _ & _ & Hfilter).
    rewrite toggleFavorite_present by done. rewrite Hfilter.
    rewrite !length_app. cbn. lia.
  - apply isFavorite_false in E. rewrite toggleFavorite_absent by done.
    by rewrite length_app.
Qed.

Lemma toggle_changes_length_by_one_witness :
  unique_names [vitalis; nimbus]
  ∧ length (toggleFavorite vitalis [vitalis; nimbus])
    = if isFavorite [vitalis; nimbus] (name vitalis)
      then (length [vitalis; nimbus] - 1)%nat
      else (length [vitalis; nimbus] + 1)%nat.
Proof.
  assert (unique_names [vitalis; nimbus]) as Hu.
  { unfold unique_names. apply (bool_decide_unpack _). vm_compute. exact I. }
  split; [exact Hu|].
  exact (toggle_changes_length_by_one vitalis [vitalis; nimbus] Hu).
Defined.

(** X5. A favorite is identified by its name alone: when the name is among
    the favorites, clicking the star of any idea of that name gives the
    same list, whatever its slogan, and the clicked idea is not in it. *)
Theorem toggle_ignores_slogan idea idea' l :
  name idea = name idea' → isFavorite l (name idea) = true →
  toggleFavorite idea l = toggleFavorite idea' l
  ∧ idea ∉ toggleFavorite idea l.
Proof.
  intros Hn Hin. apply isFavorite_spec in Hin. split.
  - rewrite !toggleFavorite_present by (by rewrite <- ?Hn). by rewrite Hn.
  - rewrite toggleFavorite_present by done.
    rewrite list_elem_of_filter. intros [H _]. by apply H.
Qed.

Lemma toggle_ignores_slogan_witness :
  name vitalis' = name vitalis
  ∧ isFavorite [vitalis; nimbus] (name vitalis') = true
  ∧ toggleFavorite vitalis' [vitalis; nimbus]
    = toggleFavorite vitalis [vitalis; nimbus]
  ∧ vitalis' ∉ toggleFavorite vitalis' [vitalis; nimbus].
Proof.
  split; [reflexivity|]. split; [reflexivity|].
  exact (toggle_ignores_slogan vitalis' vitalis [vitalis; nimbus]
           eq_refl eq_refl).
Defined.

(** X6. On favorites with unique names, un-starring and re-starring an idea
    that is in the list keeps the same favorites and moves the idea to the
    end. *)
Theorem restar_moves_to_end idea l :
  unique_names l → idea ∈ l →
  ∃ l1 l2, l = l1 ++ idea :: l2
    ∧ toggleFavorite idea (toggleFavorite idea l) = l1 ++ l2 ++ [idea]
    ∧ toggleFavorite idea (toggleFavorite idea l) ≡ₚ l.
Proof.
  intros Hu Hin.
  assert (name idea ∈ name <$> l) as Hn
    by (apply list_elem_of_fmap; eauto).
  destruct (unique_names_filter_split _ _ Hu Hn)
    as (l1 & f & l2 & -> & Hf & H1 & H2 & Hfilter).
  assert (f = idea) as ->.
  { apply elem_of_app in Hin as [Hin|Hin].
    - exfalso. apply H1, list_elem_of_fmap. eauto.
    - apply elem_of_cons in Hin as [->|Hin]; [done|].
      exfalso. apply H2, list_elem_of_fmap. eauto. }
  exists l1, l2. split; [done|].
  rewrite (toggleFavorite_present idea (l1 ++ idea :: l2)) by done.
  rewrite Hfilter.
  rewrite toggleFavorite_absent
    by (rewrite fmap_app, elem_of_app; tauto).
  rewrite <- app_assoc. split; [done|].
  apply Permutation_app_head. symmetry. apply Permutation_cons_append.
Qed.

Lemma restar_moves_to_end_witness :
  unique_names [vitalis; nimbus] ∧ vitalis ∈ [vitalis; nimbus]
  ∧ ∃ l1 l2, [vitalis; nimbus] = l1 ++ vitalis :: l2
      ∧ toggleFavorite vitalis (toggleFavorite vitalis [vitalis; nimbus])
        = l1 ++ l2 ++ [vitalis]
      ∧ toggleFavorite vitalis (toggleFavorite vitalis [vitalis; nimbus])
        ≡ₚ [vitalis; nimbus].
Proof.
  assert (unique_names [vitalis; nimbus]) as Hu.
  { unfold unique_names. apply (bool_decide_unpack _). vm_compute. exact I. }
  assert (vitalis ∈ [vitalis; nimbus]) as Hin by left.
  split; [exact Hu|]. split; [exact Hin|].
  exact (restar_moves_to_end vitalis [vitalis; nimbus] Hu Hin).
Defined.

End more_favorites.

(** ** Modifiers *)

Section modifiers.
Implicit Types (m modifier : jsstring) (prev clicks : list jsstring).

Lemma toggleModifier_present modifier prev :
  modifier ∈ prev → toggleModifier modifier prev = filter (λ m, m ≠ modifier) prev.
Proof. intros H. unfold toggleModifier. by rewrite bool_decide_eq_true_2. Qed.

Lemma toggleModifier_absent modifier prev :
  modifier ∉ prev → toggleModifier modifier prev = prev ++ [modifier].
Proof. intros H. unfold toggleModifier. by rewrite bool_decide_eq_false_2. Qed.

Lemma toggleModifier_elem_of modifier m prev :
  m ∈ toggleModifier modifier prev
  ↔ if decide (m = modifier) then modifier ∉ prev else m ∈ prev.
Proof.
  destruct (decide (modifier ∈ prev)) as [Hin|Hout].
  - rewrite toggleModifier_present, list_elem_of_filter by done.
    destruct (decide (m = modifier)) as [->|]; tauto.
  - rewrite toggleModifier_absent, elem_of_app, list_elem_of_singleton
      by done.
    destruct (decide (m = modifier)) as [->|]; tauto.
Qed.

Lemma toggleModifier_NoDup modifier prev :
  NoDup prev → NoDup (toggleModifier modifier prev).
Proof.
  intros H. destruct (decide (modifier ∈ prev)) as [Hin|Hout].
  - rewrite toggleModifier_present by done. by apply NoDup_filter.
  - rewrite toggleModifier_absent by done. apply NoDup_app.
    split_and!; [done| |apply NoDup_singleton].
    intros m Hm ->%list_elem_of_singleton. done.
Qed.

Lemma select_snoc clicks modifier :
  select (clicks ++ [modifier]) = toggleModifier modifier (select clicks).
Proof. unfold select. by rewrite foldl_app. Qed.

(** X7. A click on a modifier button flips that modifier and no other: it
    is selected afterwards exactly when it was not before, every other
    modifier is selected exactly when it was, and the others keep their
    order. *)
Theorem modifier_click_flips_one modifier prev :
  (modifier ∈ toggleModifier modifier prev ↔ modifier ∉ prev)
  ∧ (∀ m, m ≠ modifier → m ∈ toggleModifier modifier prev ↔ m ∈ prev)
  ∧ filter (λ x, x ≠ modifier) (toggleModifier modifier prev)
    = filter (λ x, x ≠ modifier) prev.
Proof.
  split_and!.
  - rewrite toggleModifier_elem_of. by rewrite decide_True.
  - intros m Hm. rewrite toggleModifier_elem_of. by rewrite decide_False.
  - destruct (decide (modifier ∈ prev)) as [Hin|Hout].
    + rewrite toggleModifier_present by done.
      rewrite list_filter_filter. apply list_filter_iff. tauto.
    + rewrite toggleModifier_absent, filter_app by done.
      rewrite (filter_cons_False _ modifier) by (intros H; by apply H).
      apply app_nil_r.
Qed.

(** X8. After any clicks on modifier buttons from the first render, a
    modifier is selected exactly when its button was clicked an odd number
    of times. *)
Theorem selected_iff_odd_clicks clicks m :
  m ∈ select clicks
  ↔ Nat.odd (length (filter (λ c, c = m) clicks)) = true.
Proof.
  induction clicks as [|modifier clicks IH] using rev_ind.
  - cbn. split; [by intros ?%elem_of_nil|done].
  - rewrite select_snoc, toggleModifier_elem_of, filter_app, length_app.
    destruct (decide (m = modifier)) as [->|Hne].
    + rewrite filter_cons_True by done. cbn [filter list_filter length].
      rewrite Nat.add_1_r, Nat.odd_succ, <- Nat.negb_odd.
      rewrite IH. destruct (Nat.odd _); cbn; split; congruence.
    + rewrite filter_cons_False by congruence. cbn [filter list_filter length].
      by rewrite Nat.add_0_r.
Qed.

(** X9. Whatever buttons of the predefined modifiers are clicked, the
    selection has no modifier twice, holds predefined modifiers only, and
    so never more than twelve. *)
Theorem selection_stays_predefined clicks :
  Forall (λ c, c ∈ PREDEFINED_MODIFIERS) clicks →
  NoDup (select clicks)
  ∧ Forall (λ m, m ∈ PREDEFINED_MODIFIERS) (select clicks)
  ∧ (length (select clicks) ≤ 12)%nat.
Proof.
  intros Hclicks.
  assert (NoDup (select clicks)) as Hnd.
  { clear Hclicks. induction clicks as [|modifier clicks IH] using rev_ind.
    - constructor.
    - rewrite select_snoc. by apply toggleModifier_NoDup. }
  assert (Forall (λ m, m ∈ PREDEFINED_MODIFIERS) (select clicks)) as Hsub.
  { clear Hnd.
    induction clicks as [|modifier clicks IH] using rev_ind; [constructor|].
    apply Forall_app in Hclicks as [Hclicks Hm].
    rewrite Forall_singleton in Hm.
    rewrite select_snoc. apply Forall_forall. intros m.
    rewrite toggleModifier_elem_of.
    destruct (decide (m = modifier)) as [->|]; [by intros _|].
    intros Hin. specialize (IH Hclicks). rewrite Forall_forall in IH. auto. }
  split_and!; [done..|].
  change 12%nat with (length PREDEFINED_MODIFIERS).
  apply submseteq_length, NoDup_submseteq; [done|].
  by apply Forall_forall.
Qed.

Lemma selection_stays_predefined_witness :
  Forall (λ c, c ∈ PREDEFINED_MODIFIERS)
    [JSString.lit "AI"; JSString.lit "Eco"; JSString.lit "AI"]
  ∧ NoDup (select [JSString.lit "AI"; JSString.lit "Eco"; JSString.lit "AI"]).
Proof.
  assert (Forall (λ c, c ∈ PREDEFINED_MODIFIERS)
            [JSString.lit "AI"; JSString.lit "Eco"; JSString.lit "AI"]) as H.
  { apply (bool_decide_unpack _). vm_compute. exact I. }
  split; [exact H|].
  exact (proj1 (selection_stays_predefined _ H)).
Defined.

(** X10. Two clicks on the same modifier button: a modifier that was not
    selected leaves the selection as it was; one that was selected ends up
    selected again, at the end of the selection (the order in which the
    prompt lists it). *)
Theorem modifier_click_twice modifier prev :
  toggleModifier modifier (toggleModifier modifier prev)
  = if bool_decide (modifier ∈ prev) then filter (λ m, m ≠ modifier) prev ++ [modifier]
    else prev.
Proof.
  assert (modifier ∉ filter (λ m, m ≠ modifier) prev) as Hgone.
  { rewrite list_elem_of_filter. intros [H _]. by apply H. }
  destruct (decide (modifier ∈ prev)) as [Hin|Hout].
  - rewrite bool_decide_eq_true_2 by done.
    rewrite (toggleModifier_present modifier prev) by done.
    by apply toggleModifier_absent.
  - rewrite bool_decide_eq_false_2 by done.
    rewrite (toggleModifier_absent modifier prev) by done.
    rewrite toggleModifier_present by (apply elem_of_app; right; left).
    rewrite filter_app, (filter_cons_False _ modifier) by (intros H; by apply H).
    rewrite app_nil_r. clear Hgone.
    induction prev as [|m prev IH]; [done|].
    apply not_elem_of_cons in Hout as [Hm Hout].
    rewrite filter_cons_True by done. by rewrite IH.
Qed.

End modifiers.

(** ** The prompt, the button and the Enter key *)

Section more_generate.
Implicit Types (w : World) (ai : Service).
Import JSString.

(** Whitespace around a text does not survive [trim]. *)
Lemma trim_white_around lead s trail :
  Forall (λ c, is_white c = true) lead →
  Forall (λ c, is_white c = true) trail →
  trim (lead ++ s ++ trail) = trim s.
Proof.
  intros Hl Ht. unfold trim. rewrite trimStart_white by done.
  destruct (trimStart s) as [|c rest] eqn:E.
  - apply trimStart_nil in E.
    assert (trimStart (s ++ trail) = []) as ->; [|done].
    apply trimStart_nil, Forall_app. by split.
  - assert (trimStart (s ++ trail) = (c :: rest) ++ trail) as ->.
    { clear Hl. induction s as [|d s IH]; [done|]. cbn [trimStart] in *.
      cbn [app trimStart]. destruct (is_white d); [by apply IH|].
      by injection E as -> ->. }
    unfold trimEnd.
    by rewrite reverse_app, trimStart_white by by apply Forall_reverse.
Qed.

Lemma generateIdeas_sends ai w :
  trim (industry (state w)) ≠ [] →
  outbound (snd (generateIdeas ai w))
  = outbound w ++ [request_of (state w)].
Proof.
  intros H. destruct (ai (request_of (state w))) as [response|e] eqn:Hai.
  - rewrite (generateIdeas_fulfilled _ _ _ H Hai).
    destruct (trim <$> text response) as [payload|]; [|done].
    destruct (truthy payload); [|done].
    by destruct (JSON.parse payload).
  - by rewrite (generateIdeas_rejected _ _ _ H Hai).
Qed.

(** X11. Keywords that are empty or whitespace only do not reach the prompt:
    the prompt is the one for no keywords. *)
Theorem blank_keywords_leave_prompt industry keywords modifiers :
  Forall (λ c, is_white c = true) keywords →
  prompt_of industry keywords modifiers = prompt_of industry [] modifiers.
Proof.
  intros H. apply trim_nil in H. unfold prompt_of. by rewrite H.
Qed.

Lemma blank_keywords_leave_prompt_witness :
  Forall (λ c, JSString.is_white c = true) [32; 9; 160]
  ∧ prompt_of (JSString.lit "AI Healthcare") [32; 9; 160] []
    = prompt_of (JSString.lit "AI Healthcare") [] [].
Proof.
  assert (Forall (λ c, JSString.is_white c = true) [32; 9; 160]) as H
    by (repeat constructor).
  split; [exact H|].
  exact (blank_keywords_leave_prompt (JSString.lit "AI Healthcare")
           [32; 9; 160] [] H).
Defined.

(** X12. [generateIdeas] sends its request exactly when the industry has a
    code unit that is not whitespace. *)
Theorem request_iff_industry_not_blank ai w :
  outbound (snd (generateIdeas ai w))
  = outbound w ++ [request_of (state w)]
  ↔ ¬ Forall (λ c, is_white c = true) (industry (state w)).
Proof.
  rewrite <- trim_nil. split.
  - intros Hout Hblank. rewrite generateIdeas_blank in Hout by done.
    cbn [snd] in Hout. apply (f_equal length) in Hout.
    rewrite length_app in Hout. cbn in Hout. lia.
  - apply generateIdeas_sends.
Qed.

(** X13. The service's text may be wrapped in whitespace of any ECMAScript
    kind, also kinds [JSON.parse] rejects (a no-break space, a byte order
    mark): when the text inside parses, its value becomes the ideas and no
    error is set. *)
Theorem padded_payload_replaces_ideas ai w response lead core trail v :
  trim (industry (state w)) ≠ [] →
  ai (request_of (state w)) = Fulfilled response →
  text response = Some (lead ++ core ++ trail) →
  Forall (λ c, is_white c = true) lead →
  Forall (λ c, is_white c = true) trail →
  JSON.parse core = Some v →
  generateIdeas ai w = (Returned (), generation_succeeded v w).
Proof.
  intros H Hai Ht Hl Htr Hv.
  apply (generateIdeas_parsed _ _ _ _ _ H Hai Ht).
  rewrite trim_white_around by done. by apply parse_trim.
Qed.

Lemma padded_payload_replaces_ideas_witness :
  JSString.trim (industry (state healthcare)) ≠ []
  ∧ generateIdeas (answering padded_payload) healthcare
    = (Returned (), generation_succeeded (ideas_value [vitalis]) healthcare).
Proof.
  assert (JSString.trim (industry (state healthcare)) ≠ []) as H
    by (vm_compute; discriminate).
  split; [exact H|].
  apply (padded_payload_replaces_ideas (answering padded_payload) healthcare
           (mkResponse (Some padded_payload)) [160]
           (JSON_stringify [vitalis]) [65279] (ideas_value [vitalis]) H
           eq_refl eq_refl).
  - repeat constructor.
  - repeat constructor.
  - apply parse_stringify.
Defined.

(** X14. With a non-blank industry, [generateIdeas] does not look at
    [loading], [error], [copiedIndex] or [view]: whatever they hold, the
    result and the world afterwards are the same. *)
Theorem generate_ignores_status ai w b e i v :
  trim (industry (state w)) ≠ [] →
  generateIdeas ai (with_status b e i v w) = generateIdeas ai w.
Proof.
  intros H.
  assert (trim (industry (state (with_status b e i v w))) ≠ []) as H'
    by done.
  destruct (ai (request_of (state w))) as [response|ex] eqn:Hai.
  - rewrite (generateIdeas_fulfilled _ _ _ H Hai).
    rewrite (generateIdeas_fulfilled _ (with_status b e i v w) response H')
      by done.
    destruct (trim <$> text response) as [payload|]; [|done].
    destruct (truthy payload); [|done].
    by destruct (JSON.parse payload).
  - rewrite (generateIdeas_rejected _ _ _ H Hai).
    by rewrite (generateIdeas_rejected _ (with_status b e i v w) ex H').
Qed.

Lemma generate_ignores_status_witness :
  JSString.trim (industry (state healthcare)) ≠ []
  ∧ generateIdeas unreachable healthcare_loading
    = generateIdeas unreachable healthcare.
Proof.
  assert (JSString.trim (industry (state healthcare)) ≠ []) as H
    by (vm_compute; discriminate).
  split; [exact H|].
  exact (generate_ignores_status unreachable healthcare true None None
           Generate H).
Defined.

(** X15. While a generation is loading the button is disabled and a click
    does nothing, but the Enter key of the inputs is not gated: with a
    non-blank industry it runs [generateIdeas] and another request goes
    out. *)
Theorem enter_submits_while_loading ai w :
  loading (state w) = true →
  trim (industry (state w)) ≠ [] →
  generate_disabled (state w) = true
  ∧ generate_click ai w = (Returned (), w)
  ∧ onKeyDown ai (lit "Enter") w = generateIdeas ai w
  ∧ outbound (snd (onKeyDown ai (lit "Enter") w))
    = outbound w ++ [request_of (state w)].
Proof.
  intros Hl H.
  assert (generate_disabled (state w) = true) as Hd
    by (unfold generate_disabled; by rewrite Hl).
  assert (onKeyDown ai (lit "Enter") w = generateIdeas ai w) as Hk
    by (unfold onKeyDown; by rewrite bool_decide_eq_true_2).
  split_and!; [done| |done|].
  - unfold generate_click. by rewrite Hd.
  - rewrite Hk. by apply generateIdeas_sends.
Qed.

Lemma enter_submits_while_loading_witness :
  loading (state healthcare_loading) = true
  ∧ JSString.trim (industry (state healthcare_loading)) ≠ []
  ∧ outbound (snd (onKeyDown unreachable (JSString.lit "Enter")
                     healthcare_loading))
    = outbound healthcare_loading ++ [request_of (state healthcare_loading)].
Proof.
  assert (JSString.trim (industry (state healthcare_loading)) ≠ []) as H
    by (vm_compute; discriminate).
  split; [reflexivity|]. split; [exact H|].
  exact (proj2 (proj2 (proj2
           (enter_submits_while_loading unreachable healthcare_loading
              eq_refl H)))).
Defined.

(** X16. The button's [disabled] test covers the handler's own guard: a
    click on the enabled button always sends the request. *)
Theorem enabled_click_sends ai w :
  generate_disabled (state w) = false →
  generate_click ai w = generateIdeas ai w
  ∧ outbound (snd (generate_click ai w))
    = outbound w ++ [request_of (state w)].
Proof.
  intros Hd.
  assert (generate_click ai w = generateIdeas ai w) as ->
    by (unfold generate_click; by rewrite Hd).
  split; [done|]. apply generateIdeas_sends.
  unfold generate_disabled in Hd. apply orb_false_elim in Hd as [_ Hd].
  apply negb_false_iff in Hd. by destruct (JSString.trim _).
Qed.

Lemma enabled_click_sends_witness :
  generate_disabled (state healthcare) = false
  ∧ outbound (snd (generate_click unreachable healthcare))
    = outbound healthcare ++ [request_of (state healthcare)].
Proof.
  assert (generate_disabled (state healthcare) = false) as H
    by (vm_compute; reflexivity).
  split; [exact H|].
  exact (proj2 (enabled_click_sends unreachable healthcare H)).
Defined.

End more_generate.

(** ** Page loads *)

Section more_storage.
Implicit Types (w : World) (l : list StartupIdea)
  (storage : gmap jsstring jsstring).

Lemma persist_other l storage k :
  k ≠ STORAGE_KEY → persist l storage !! k = storage !! k.
Proof. intros H. unfold persist. by apply lookup_insert_ne. Qed.


(** X17. Hydration never throws, whatever the storage holds, writes nothing
    to the storage and sends nothing.  It hands a value to [setFavorites]
    exactly when the key holds a text that parses, and then the parsed
    value as it is, whatever it is; it logs its diagnostic exactly when the
    key holds a text that is not empty and does not parse. *)
Theorem hydrate_never_throws w :
  ∃ h, fst (hydrate w) = Returned h
       ∧ localStorage (snd (hydrate w)) = localStorage w
       ∧ outbound (snd (hydrate w)) = outbound w
       ∧ (∀ v, h = Some v
               ↔ ∃ text, localStorage w !! STORAGE_KEY = Some text
                         ∧ JSON.parse text = Some v)
       ∧ ((console (snd (hydrate w)) = console w ++ [PARSE_DIAGNOSTIC]
           ∧ ∃ text, localStorage w !! STORAGE_KEY = Some text
                     ∧ text ≠ [] ∧ JSON.parse text = None)
          ∨ (console (snd (hydrate w)) = console w
             ∧ ∀ text, localStorage w !! STORAGE_KEY = Some text →
                       text = [] ∨ is_Some (JSON.parse text))).
Proof.
  destruct (localStorage w !! STORAGE_KEY) as [text|] eqn:E.
  - destruct text as [|c text].
    + rewrite (hydrate_empty _ E). exists None. cbn. split_and!; try done.
      * intros v. split; [done|]. by intros (? & [= <-] & ?).
      * right. split; [done|]. intros ? [= <-]. by left.
    + destruct (JSON.parse (c :: text)) as [v|] eqn:Hv.
      * rewrite (hydrate_parsed _ _ _ E Hv). exists (Some v). cbn.
        split_and!; try done.
        -- intros v'. split.
           ++ intros [= <-]. by eauto.
           ++ intros (? & [= <-] & Hv'). by rewrite Hv in Hv'.
        -- right. split; [done|]. intros ? [= <-]. right. by rewrite Hv.
      * rewrite (hydrate_unparsable _ _ E eq_refl Hv). exists None. cbn.
        split_and!; try done.
        -- intros v. split; [done|].
           intros (? & [= <-] & Hv'). by rewrite Hv in Hv'.
        -- left. split; [done|]. by exists (c :: text).
  - rewrite (hydrate_missing _ E). exists None. cbn. split_and!; try done.
    + intros v. split; [done|]. by intros (? & [=] & ?).
    + right. split; [done|]. by intros ? [=].
Qed.



(** X19. A page load on storage whose key is missing or holds text that does
    not parse ends with no favorites and with the key overwritten by the
    text of the empty array: the unreadable text is gone. *)
Theorem mount_overwrites_unreadable (storage : gmap jsstring jsstring) :
  storage !! STORAGE_KEY = None
  ∨ (∃ text, storage !! STORAGE_KEY = Some text ∧ JSON.parse text = None) →
  ∃ w, mount storage = Ready w
       ∧ favorites (state w) = []
       ∧ localStorage w !! STORAGE_KEY = Some [91; 93]
       ∧ ∀ k, k ≠ STORAGE_KEY → localStorage w !! k = storage !! k.
Proof.
  intros [Hnone|(text & Ht & Hv)].
  - rewrite mount_missing by done. eexists. split; [done|]. cbn -[persist].
    split_and!; [done|apply persist_lookup|].
    intros k Hk. by apply persist_other.
  - rewrite (mount_unparsable _ _ Ht Hv). eexists. split; [done|].
    cbn -[persist]. split_and!; [done|apply persist_lookup|].
    intros k Hk. by apply persist_other.
Qed.

Lemma mount_overwrites_unreadable_witness :
  (({[STORAGE_KEY := corrupted]} : gmap jsstring jsstring) !! STORAGE_KEY
   = None
   ∨ ∃ text, ({[STORAGE_KEY := corrupted]} : gmap jsstring jsstring)
             !! STORAGE_KEY = Some text ∧ JSON.parse text = None)
  ∧ ∃ w, mount {[STORAGE_KEY := corrupted]} = Ready w
         ∧ favorites (state w) = []
         ∧ localStorage w !! STORAGE_KEY = Some [91; 93]
         ∧ ∀ k, k ≠ STORAGE_KEY →
             localStorage w !! k
             = ({[STORAGE_KEY := corrupted]} : gmap jsstring jsstring) !! k.
Proof.
  assert (({[STORAGE_KEY := corrupted]} : gmap jsstring jsstring)
          !! STORAGE_KEY = None
          ∨ ∃ text, ({[STORAGE_KEY := corrupted]} : gmap jsstring jsstring)
                    !! STORAGE_KEY = Some text ∧ JSON.parse text = None)
    as H.
  { right. exists corrupted. split; [apply lookup_singleton_eq|reflexivity]. }
  split; [exact H|].
  exact (mount_overwrites_unreadable {[STORAGE_KEY := corrupted]} H).
Defined.

End more_storage.

(** ** Sessions *)

Section sessions.
Implicit Types (w : World) (l : list StartupIdea)
  (storage base : gmap jsstring jsstring) (events : list Event).

Lemma generate_begin_run w :
  generate_begin w
  = if JSString.truthy (JSString.trim (industry (state w)))
    then (Returned true,
          snd (send (request_of (state w))
                 (with_status true None None Generate w)))
    else (Returned false, w).
Proof.
  unfold generate_begin.
  destruct (JSString.truthy (JSString.trim (industry (state w))));
    reflexivity.
Qed.

Lemma generate_resume_run reply w :
  generate_resume reply w
  = (Returned (),
     match reply with
     | Rejected e => resumed_failed e w
     | Fulfilled response =>
         match JSString.trim <$> text response with
         | Some payload =>
             if JSString.truthy payload then
               match JSON.parse payload with
               | Some v => resumed_parsed v w
               | None => resumed_failed SyntaxError w
               end
             else resumed_failed NO_PAYLOAD w
         | None => resumed_failed NO_PAYLOAD w
         end
     end).
Proof.
  unfold generate_resume. destruct reply as [response|e]; [|reflexivity].
  run_handler.
  destruct (text response) as [t|]; [|reflexivity].
  run_handler.
  destruct (JSString.trim t) as [|c payload]; [reflexivity|].
  run_handler.
  destruct (JSON.parse (c :: payload)); reflexivity.
Qed.

(** The two halves make up the handler: [generateIdeas] is what runs up to
    the [await], and then what runs on the reply of the service. *)
Lemma generateIdeas_split ai w :
  generateIdeas ai w
  = match generate_begin w with
    | (Returned true, w') =>
        generate_resume (ai (request_of (state w))) w'
    | (_, w') => (Returned (), w')
    end.
Proof.
  rewrite generate_begin_run.
  destruct (JSString.truthy (JSString.trim (industry (state w)))) eqn:Hb.
  - assert (JSString.trim (industry (state w)) ≠ []) as Hn
      by (by destruct (JSString.trim (industry (state w)))).
    rewrite generate_resume_run.
    destruct (ai (request_of (state w))) as [response|e] eqn:Hai.
    + rewrite (generateIdeas_fulfilled _ _ _ Hn Hai).
      destruct (JSString.trim <$> text response) as [payload|];
        [|reflexivity].
      destruct (JSString.truthy payload); [|reflexivity].
      destruct (JSON.parse payload); reflexivity.
    + by rewrite (generateIdeas_rejected _ _ _ Hn Hai).
  - apply generateIdeas_blank.
    by destruct (JSString.trim (industry (state w))).
Qed.

(** A click on the generate button that is answered at once is the handler
    run in one go. *)
Lemma click_answered ai w :
  form_shown (state w) = true →
  is_Some (as_ideas (ideas (state w))) →
  run [ClickGenerate; Answer (ai (request_of (state w)))] 0 w
  = settled (snd (generate_click ai w)).
Proof.
  intros Hv [l Hl]. cbn [run step]. rewrite Hv. unfold generate_click.
  destruct (generate_disabled (state w)) eqn:Hd; cbn [andb negb snd].
  { unfold settled. by rewrite Hl. }
  rewrite generateIdeas_split.
  apply orb_false_iff in Hd as [_ Hb]. apply negb_false_iff in Hb.
  rewrite generate_begin_run, Hb. cbn [step snd].
  by destruct (settled _).
Qed.














End sessions.

(** ** Row keys *)

Section keys.

Lemma lit_inj s1 s2 : JSString.lit s1 = JSString.lit s2 → s1 = s2.
Proof.
  unfold JSString.lit. intros H.
  assert (Inj (=) (=) N_of_ascii) as Hinj.
  { intros a b Hab. apply (f_equal ascii_of_N) in Hab.
    by rewrite !ascii_N_embedding in Hab. }
  apply (inj (fmap N_of_ascii)) in H.
  apply (f_equal string_of_list_ascii) in H.
  by rewrite !string_of_list_ascii_of_string in H.
Qed.

Lemma decimal_inj i j : decimal i = decimal j → i = j.
Proof.
  unfold decimal. intros H%lit_inj.
  apply Unsigned.to_uint_inj.
  apply (f_equal NilEmpty.uint_of_string) in H.
  rewrite !NilEmpty.usu in H. congruence.
Qed.

Lemma decimal_digits i : Forall (λ c, 48 ≤ c ≤ 57) (decimal i).
Proof.
  unfold decimal. generalize (Nat.to_uint i). intros d.
  induction d; cbn; constructor; try done; by compute.
Qed.

Lemma decimal_no_dash i : 45 ∉ decimal i.
Proof.
  intros H. pose proof (decimal_digits i) as Hd.
  rewrite Forall_forall in Hd. apply Hd in H. lia.
Qed.

(** The part after the last separator is determined by the whole. *)
Lemma last_separator (x : N) (l1 r1 l2 r2 : jsstring) :
  x ∉ r1 → x ∉ r2 → l1 ++ x :: r1 = l2 ++ x :: r2 → l1 = l2 ∧ r1 = r2.
Proof.
  intros H1 H2. revert l2. induction l1 as [|a l1 IH]; intros [|b l2] H;
    cbn in H.
  - by injection H as ->.
  - injection H as <- ->. exfalso. apply H1, elem_of_app. right. left.
  - injection H as <- <-. exfalso. apply H2, elem_of_app. right. left.
  - injection H as -> H. by destruct (IH _ H) as [-> ->].
Qed.

(** X22. The React keys of the rendered rows are pairwise distinct, also
    when rows share a name. *)
Theorem item_keys_are_unique l : NoDup (item_keys l).
Proof.
  apply NoDup_alt. intros i j key Hi Hj. unfold item_keys in *.
  rewrite list_lookup_imap in Hi, Hj.
  destruct (l !! i) as [a|]; [|done]. destruct (l !! j) as [b|]; [|done].
  cbn in Hi, Hj. injection Hi as <-. injection Hj as Hj. unfold item_key in Hj.
  cbn [app] in Hj.
  apply last_separator in Hj as [_ Hj]; try apply decimal_no_dash.
  symmetry. by apply decimal_inj.
Qed.

End keys.
